(** * Dynaphore: a dynamically-sized semaphore (package dynaphore)

    A shallow embedding of [dynaphore.go].  Go channels and goroutines are
    modelled by an executable interleaving semantics ([exec], driven by the
    scheduler's choices); the methods of the [dynaphore] struct are written
    as goroutine programs over the channel primitives; [manager] is the
    arbitration loop, one [select] per iteration.  The program starts with
    [NewDynaphore] ([start]) and the properties are stated over the worlds
    reachable from there, for every client that uses the methods ([api]).

    Go's [int] is taken to be 64 bits wide. *)

From stdpp Require Import base tactics option list numbers.

Local Open Scope Z_scope.

Module Dynaphore.

(** ** Go's [int]: 64-bit two's complement, wrap-around written out *)

Definition int_bits : Z := 64.
Definition min_int : Z := - 2 ^ (int_bits - 1).
Definition max_int : Z := 2 ^ (int_bits - 1) - 1.

Definition in_int (z : Z) : Prop := min_int ≤ z ≤ max_int.

Definition wrap (z : Z) : Z :=
  (z - min_int) `mod` 2 ^ int_bits + min_int.

(** ** Channels *)

(** Values carried by the channels of this package: [struct{}{}] and [int]. *)
Inductive val : Type :=
| VUnit
| VInt (n : Z).

Definition int_of (v : val) : Z :=
  match v with
  | VInt n => n
  | VUnit => 0
  end.

(** A channel reference is an address in the channel store; [None] is the
    [nil] channel. *)
Definition chanref : Type := option nat.

(** The runtime state of a channel made by [make(chan T, qcap)]: its buffer
    and whether it was closed.  [zero] is the zero value of [T], which a
    receive on a closed, drained channel yields. *)
Record hchan : Type := Hchan {
  qcap : nat;
  zero : val;
  buf : list val;
  closed : bool
}.

(** ** The struct *)

Record dynaphore : Type := {
  lock : chanref;    (* chan struct{}: sent on to gain a lock *)
  unlock : chanref;  (* chan struct{}: sent on to release a lock *)
  max : chanref;     (* chan int: sent on when the maximum has changed *)
  current : chanref  (* chan int: received on to learn the number of locks *)
}.

(** ** Goroutine programs *)

(** Straight-line goroutine code in continuation-passing style. *)
Inductive prog : Type :=
| Done
| Panic
| Send (c : chanref) (v : val) (k : prog)               (* c <- v *)
| Recv (c : chanref) (k : val → prog)                   (* <-c *)
| Close (c : chanref) (k : prog)                        (* close(c) *)
| Make (z : val) (cap : nat) (k : chanref → prog)       (* make(chan T, cap) *)
| Go (body : prog) (k : prog)                           (* go func() { body }() *)
| GoManager (s : dynaphore) (k : prog).                 (* go s.manager() *)

(** The state of the goroutine running [manager]: [MStart] is the entry of
    the function, [MLoop current max] the head of the [for] loop. *)
Inductive mstate : Type :=
| MStart
| MLoop (current max : Z).

(** One communication clause of a [select] (or a lone channel operation),
    with the state the goroutine continues in. *)
Inductive scase (S : Type) : Type :=
| CaseRecv (c : chanref) (k : val → S)
| CaseSend (c : chanref) (v : val) (k : S).
Arguments CaseRecv {S} c k.
Arguments CaseSend {S} c v k.

(** ** The methods, from dynaphore.go *)

(** [type LockChan <-chan struct{}] *)
Definition LockChan : Type := chanref.

Definition Down (s : dynaphore) (k : prog) : prog :=
  Send (unlock s) VUnit k.

Definition SetMax (s : dynaphore) (newMax : Z) (k : prog) : prog :=
  Send (max s) (VInt newMax) k.

Definition Current (s : dynaphore) (k : Z → prog) : prog :=
  Recv (current s) (λ v, k (int_of v)).

Definition Up (s : dynaphore) (k : prog) : prog :=
  Send (lock s) VUnit k.

Definition UpChan (s : dynaphore) (k : LockChan → prog) : prog :=
  Make VUnit 0 (λ l,
    Go (Send (lock s) VUnit (Close l Done))
       (k l)).

Definition DownChan (s : dynaphore) (l : LockChan) (k : prog) : prog :=
  Go (Recv l (λ _, Down s Done)) k.

(** [NewDynaphore]: the struct literal sets [lock], [unlock] and [max]; the
    field [current] is not mentioned and keeps its zero value, [nil]. *)
Definition NewDynaphore (max0 : Z) (k : dynaphore → prog) : prog :=
  Make VUnit 0 (λ c_lock,
  Make VUnit 1 (λ c_unlock,
  Make (VInt 0) 1 (λ c_max,
    let s := {| lock := c_lock; unlock := c_unlock; max := c_max;
                current := None |} in
    Send (max s) (VInt max0)
      (GoManager s
        (k s))))).

Definition case_lock : nat := 0%nat.
Definition case_unlock : nat := 1%nat.
Definition case_current : nat := 2%nat.
Definition case_max : nat := 3%nat.

(** [manager]: at [MStart] the statement [max := <-s.max] (with
    [current := 0]); at the loop head the four clauses of the [select], in
    source order. *)
Definition manager (s : dynaphore) (st : mstate) : list (scase mstate) :=
  match st with
  | MStart =>
      [ CaseRecv s.(Dynaphore.max) (λ v, MLoop 0 (int_of v)) ]
  | MLoop current max =>
      let lock := if bool_decide (current >= max) then None else s.(Dynaphore.lock) in
      [ CaseRecv lock (λ _, MLoop (wrap (current + 1)) max);
        CaseRecv s.(Dynaphore.unlock) (λ _,
          if bool_decide (current > 0)
          then MLoop (wrap (current - 1)) max
          else MLoop current max);
        CaseSend s.(Dynaphore.current) (VInt current) (MLoop current max);
        CaseRecv s.(Dynaphore.max) (λ v, MLoop current (int_of v)) ]
  end.

(** ** Goroutines and the scheduler *)

Inductive goroutine : Type :=
| GProg (p : prog)
| GManager (s : dynaphore) (st : mstate).

(** What a goroutine is ready to communicate, with the goroutine it becomes. *)
Inductive offer : Type :=
| OSend (c : chanref) (v : val) (k : goroutine)
| ORecv (c : chanref) (k : val → goroutine).

Definition offer_of {S : Type} (f : S → goroutine) (c : scase S) : offer :=
  match c with
  | CaseRecv c k => ORecv c (λ v, f (k v))
  | CaseSend c v k => OSend c v (f k)
  end.

Definition offers (g : goroutine) : list offer :=
  match g with
  | GProg (Send c v k) => [OSend c v (GProg k)]
  | GProg (Recv c k) => [ORecv c (λ v, GProg (k v))]
  | GProg _ => []
  | GManager s st => offer_of (GManager s) <$> manager s st
  end.

Record world : Type := World {
  heap : list hchan;
  gs : list goroutine
}.

Definition set_buf (ch : hchan) (b : list val) : hchan :=
  Hchan (qcap ch) (zero ch) b (closed ch).

Definition set_closed (ch : hchan) : hchan :=
  Hchan (qcap ch) (zero ch) (buf ch) true.

(** Steps a goroutine takes without a partner: [make], [go], [close]. *)
Definition tau (h : list hchan) (g : goroutine)
  : option (list hchan * goroutine * list goroutine) :=
  match g with
  | GProg (Make z cap k) =>
      Some (h ++ [Hchan cap z [] false], GProg (k (Some (length h))), [])
  | GProg (Go body k) => Some (h, GProg k, [GProg body])
  | GProg (GoManager s k) => Some (h, GProg k, [GManager s MStart])
  | GProg (Close None k) => Some (h, GProg Panic, [])
  | GProg (Close (Some a) k) =>
      match h !! a with
      | Some ch =>
          if closed ch then Some (h, GProg Panic, [])
          else Some (<[a := set_closed ch]> h, GProg k, [])
      | None => None
      end
  | _ => None
  end.

(** A channel operation that completes against the channel alone: a send
    into a buffer with room (a send on a closed channel panics), a receive
    from a non-empty buffer, a receive on a closed and drained channel.  An
    operation on the [nil] channel never completes. *)
Definition alone (h : list hchan) (o : offer)
  : option (list hchan * goroutine) :=
  match o with
  | OSend (Some a) v k =>
      match h !! a with
      | Some ch =>
          if closed ch then Some (h, GProg Panic)
          else if bool_decide (length (buf ch) < qcap ch)%nat
               then Some (<[a := set_buf ch (buf ch ++ [v])]> h, k)
               else None
      | None => None
      end
  | ORecv (Some a) k =>
      match h !! a with
      | Some ch =>
          match buf ch with
          | v :: b => Some (<[a := set_buf ch b]> h, k v)
          | [] => if closed ch then Some (h, k (zero ch)) else None
          end
      | None => None
      end
  | _ => None
  end.

(** A sender and a receiver meeting on the same open channel with an empty
    buffer: the value is handed over directly. *)
Definition sync (h : list hchan) (os or : offer)
  : option (goroutine * goroutine) :=
  match os, or with
  | OSend (Some a) v ks, ORecv (Some b) kr =>
      if bool_decide (a = b) then
        match h !! a with
        | Some ch =>
            if closed ch then None
            else match buf ch with
                 | [] => Some (ks, kr v)
                 | _ :: _ => None
                 end
        | None => None
        end
      else None
  | _, _ => None
  end.

(** One scheduling decision: goroutine [i] steps by itself, or performs
    clause [n] of its pending operations against the channel, or sender [i]
    (clause [n]) meets receiver [j] (clause [m]). *)
Inductive choice : Type :=
| Tau (i : nat)
| Alone (i n : nat)
| Sync (i n j m : nat).

Definition exec (w : world) (c : choice) : option world :=
  match c with
  | Tau i =>
      g ← gs w !! i;
      '(h', g', new) ← tau (heap w) g;
      Some (World h' (<[i := g']> (gs w) ++ new))
  | Alone i n =>
      g ← gs w !! i;
      o ← offers g !! n;
      '(h', g') ← alone (heap w) o;
      Some (World h' (<[i := g']> (gs w)))
  | Sync i n j m =>
      if bool_decide (i = j) then None else
      gi ← gs w !! i;
      oi ← offers gi !! n;
      gj ← gs w !! j;
      oj ← offers gj !! m;
      '(gi', gj') ← sync (heap w) oi oj;
      Some (World (heap w) (<[j := gj']> (<[i := gi']> (gs w))))
  end.

Fixpoint run (w : world) (cs : list choice) : option world :=
  match cs with
  | [] => Some w
  | c :: cs' => w' ← exec w c; run w' cs'
  end.

(** Does the step [c] execute clause [n] of goroutine [i]? *)
Definition fires (c : choice) (i n : nat) : bool :=
  match c with
  | Tau _ => false
  | Alone i' n' => bool_decide (i = i' ∧ n = n')
  | Sync i1 n1 i2 n2 =>
      bool_decide (i = i1 ∧ n = n1) || bool_decide (i = i2 ∧ n = n2)
  end.

Inductive reachable (w0 : world) : world → Prop :=
| reachable_here : reachable w0 w0
| reachable_step w c w' :
    reachable w0 w → exec w c = Some w' → reachable w0 w'.

(** The program starts as a single goroutine that calls [NewDynaphore max0]
    and goes on as [client]. *)
Definition start (max0 : Z) (client : dynaphore → prog) : world :=
  World [] [GProg (NewDynaphore max0 client)].

(** Client code that uses a [Dynaphore] through its methods, starts
    goroutines, and waits on lock channels. *)
Inductive api (s : dynaphore) : prog → Prop :=
| api_Done : api s Done
| api_SetMax newMax k : in_int newMax → api s k → api s (SetMax s newMax k)
| api_Current k : (∀ n, api s (k n)) → api s (Current s k)
| api_Up k : api s k → api s (Up s k)
| api_Down k : api s k → api s (Down s k)
| api_UpChan k : (∀ l, api s (k l)) → api s (UpChan s k)
| api_DownChan l k : api s k → api s (DownChan s l k)
| api_Go body k : api s body → api s k → api s (Go body k)
| api_Wait l k : api s k → api s (Recv l (λ _, k)).

(** The value a receiver obtains in the step [c]. *)
Definition received (w : world) (c : choice) : option val :=
  match c with
  | Tau _ => None
  | Alone i n =>
      g ← gs w !! i;
      o ← offers g !! n;
      match o with
      | ORecv (Some a) _ =>
          ch ← heap w !! a;
          Some (match buf ch with v :: _ => v | [] => zero ch end)
      | _ => None
      end
  | Sync i n _ _ =>
      g ← gs w !! i;
      o ← offers g !! n;
      match o with
      | OSend _ v _ => Some v
      | ORecv _ _ => None
      end
  end.

(** The struct that [NewDynaphore] builds when it runs first: the three
    channels it makes get the first three addresses. *)
Definition s0 : dynaphore :=
  {| lock := Some 0%nat; unlock := Some 1%nat; max := Some 2%nat;
     current := None |}.

Definition boot_sched : list choice :=
  [Tau 0; Tau 0; Tau 0; Alone 0 0; Tau 0]%nat.

(** The world when [NewDynaphore] returns. *)
Definition booted (max0 : Z) (client : dynaphore → prog) : world :=
  World [Hchan 0 VUnit [] false; Hchan 1 VUnit [] false;
         Hchan 1 (VInt 0) [VInt max0] false]
        [GProg (client s0); GManager s0 MStart].

(** ** Invariants of the reachable worlds *)

Definition is_int (v : val) : Prop :=
  match v with
  | VInt n => in_int n
  | VUnit => False
  end.

(** Only in-range [int]s are sent on the [max] channel. *)
Fixpoint safe (p : prog) : Prop :=
  match p with
  | Done | Panic => True
  | Send c v k => (c = max s0 → is_int v) ∧ safe k
  | Recv c k => ∀ v, safe (k v)
  | Close c k => safe k
  | Make z cap k => ∀ l, safe (k l)
  | Go body k => safe body ∧ safe k
  | GoManager s k => s = s0 ∧ safe k
  end.

Definition good_st (st : mstate) : Prop :=
  match st with
  | MStart => True
  | MLoop current max => 0 ≤ current ≤ max_int ∧ in_int max
  end.

Definition good_g (g : goroutine) : Prop :=
  match g with
  | GProg p => safe p
  | GManager s st => s = s0 ∧ good_st st
  end.

Definition good_o (o : offer) : Prop :=
  match o with
  | OSend c v k => (c = max s0 → is_int v) ∧ good_g k
  | ORecv c k => ∀ v, c ≠ None → (c = max s0 → is_int v) → good_g (k v)
  end.

Definition good_heap (h : list hchan) : Prop :=
  ∃ ch, h !! 2%nat = Some ch ∧ is_int (zero ch) ∧ Forall is_int (buf ch).

Definition running (w : world) : Prop :=
  good_heap (heap w) ∧ Forall good_g (gs w).

Definition booting (max0 : Z) (client : dynaphore → prog) (w : world) : Prop :=
  ∃ n, (n < 5)%nat ∧ run (start max0 client) (take n boot_sched) = Some w.

(** ** Raising the maximum while tasks are blocked *)

Definition is_loop (w : world) (i : nat) : bool :=
  match gs w !! i with
  | Some (GManager _ (MLoop _ _)) => true
  | _ => false
  end.

(** Does the step [c] from [w] service clause [n] of a manager's [select]? *)
Definition serviced (w : world) (c : choice) (n : nat) : bool :=
  match c with
  | Tau _ => false
  | Alone i n' => is_loop w i && bool_decide (n = n')
  | Sync i1 n1 i2 n2 =>
      (is_loop w i1 && bool_decide (n = n1))
      || (is_loop w i2 && bool_decide (n = n2))
  end.

(** How many steps of the run [cs] from [w] service clause [n]. *)
Fixpoint count (n : nat) (w : world) (cs : list choice) : nat :=
  match cs with
  | [] => 0
  | c :: cs' =>
      match exec w c with
      | Some w' => ((if serviced w c n then 1 else 0) + count n w' cs')%nat
      | None => 0%nat
      end
  end.

Definition is_done (g : goroutine) : bool :=
  match g with
  | GProg Done => true
  | _ => false
  end.

(** How many of the goroutines [ws] have returned. *)
Fixpoint ndone (ws : list goroutine) : nat :=
  match ws with
  | [] => 0
  | g :: ws' => ((if is_done g then 1 else 0) + ndone ws')%nat
  end.

(** A dynaphore whose manager (goroutine 1, as after [NewDynaphore]) is at
    its loop head with [cur] and [mx], its [lock] and [unlock] channels
    empty, the buffer of its [max] channel holding [b]; the main goroutine
    runs [p] and the goroutines [ws] follow. *)
Definition shape (p : prog) (b : list val) (cur mx : Z) (ws : list goroutine)
  : world :=
  World [Hchan 0 VUnit [] false; Hchan 1 VUnit [] false;
         Hchan 1 (VInt 0) b false]
        (GProg p :: GManager s0 (MLoop cur mx) :: ws).

(** [N] goroutines are inside [Up()], the manager holds [cur >= mx], and a
    goroutine is about to call [SetMax(newMax)]. *)
Definition waiting (cur mx newMax : Z) (N : nat) : world :=
  shape (SetMax s0 newMax Done) [] cur mx (replicate N (GProg (Up s0 Done))).

Definition up_or_done (g : goroutine) : Prop :=
  g = GProg (Up s0 Done) ∨ g = GProg Done.

(** The worlds a run from [waiting cur mx newMax N] goes through, with the
    number of permits granted so far and a bound on the steps left. *)
Inductive stage (cur mx newMax : Z) (N : nat) : world → nat → nat → Prop :=
| stage_call :
    stage cur mx newMax N (waiting cur mx newMax N) 0
      (2 + Nat.min N (Z.to_nat (newMax - cur)))
| stage_sent :
    stage cur mx newMax N
      (shape Done [VInt newMax] cur mx (replicate N (GProg (Up s0 Done)))) 0
      (1 + Nat.min N (Z.to_nat (newMax - cur)))
| stage_raised ws g :
    length ws = N → Forall up_or_done ws → ndone ws = g →
    (g ≤ Nat.min N (Z.to_nat (newMax - cur)))%nat →
    stage cur mx newMax N (shape Done [] (cur + Z.of_nat g) newMax ws) g
      (Nat.min N (Z.to_nat (newMax - cur)) - g).

(** ** [DownChan] on a ready handle *)



(** [l := dyn.UpChan(); dyn.DownChan(l)] *)
Definition client_chan (s : dynaphore) : prog :=
  UpChan s (λ l, DownChan s l Done).


(** ** Scenarios *)

(** The world of [start max0 client] after [NewDynaphore] has returned and
    the manager has taken the initial maximum and reached its loop, followed
    by the schedule [cs]. *)
Definition scenario (max0 : Z) (client : dynaphore → prog) (cs : list choice)
  : world :=
  default (World [] [])
          (run (start max0 client) (boot_sched ++ Alone 1 0 :: cs)).

(** [dyn.Up(); dyn.Up()] *)
Definition client_up_up (s : dynaphore) : prog := Up s (Up s Done).

(** [dyn.Down()] without a lock held. *)
Definition client_down (s : dynaphore) : prog := Down s Done.

(** [dyn.SetMax(5)] *)
Definition client_setmax (s : dynaphore) : prog := SetMax s 5 Done.

(** [go func() { dyn.Current() }(); dyn.Down()] *)
Definition client_query (s : dynaphore) : prog :=
  Go (Current s (λ _, Done)) (Down s Done).

(** [dyn.Up(); go dyn.Up(); go dyn.Up(); go dyn.Up(); dyn.SetMax(3)] *)
Definition client_raise (s : dynaphore) : prog :=
  Up s (Go (Up s Done) (Go (Up s Done) (Go (Up s Done) (SetMax s 3 Done)))).

(** TestDynaphore: three [Up()], a goroutine that calls [Down()], a fourth
    [Up()], then four [Down()]. *)
Definition client_test (s : dynaphore) : prog :=
  Up s (Up s (Up s
    (Go (Down s Done)
      (Up s (Down s (Down s (Down s (Down s Done)))))))).

(** TestDynaphore_SetMax: one [Up()], two [UpChan()], [SetMax(3)],
    [SetMax(2)], a third [UpChan()], two [Down()]. *)
Definition client_test_setmax (s : dynaphore) : prog :=
  Up s (UpChan s (λ _, UpChan s (λ _,
    SetMax s 3 (SetMax s 2 (UpChan s (λ _,
      Down s (Down s Done))))))).

(** The main goroutine's [Up()] is granted. *)
Definition up_main : choice := Sync 0 0 1 case_lock.

(** The main goroutine's [SetMax] or [Down()] is delivered to the buffer,
    then taken by the manager. *)
Definition setmax_main : list choice := [Alone 0 0; Alone 1 case_max].
Definition down_main : list choice := [Alone 0 0; Alone 1 case_unlock].

(** [dyn.Current()] *)
Definition client_current (s : dynaphore) : prog := Current s (λ _, Done).



(** The channels a [select] waits on. *)
Definition clause_chan {S : Type} (sc : scase S) : chanref :=
  match sc with
  | CaseRecv c _ => c
  | CaseSend c _ _ => c
  end.

(** * Client discipline, ownership and accounting *)

(** ** Clients that take their lock channels from [UpChan] *)

(** A lock channel a client can hold: not one of the struct's own channels
    (they are unexported fields). *)
Definition handle (s : dynaphore) (l : LockChan) : Prop :=
  l ≠ lock s ∧ l ≠ unlock s ∧ l ≠ max s.

(** Client code as in [api], where the lock channels passed to [DownChan]
    and waited on are handles. *)
Inductive uses (s : dynaphore) : prog → Prop :=
| uses_Done : uses s Done
| uses_SetMax newMax k : in_int newMax → uses s k → uses s (SetMax s newMax k)
| uses_Current k : (∀ n, uses s (k n)) → uses s (Current s k)
| uses_Up k : uses s k → uses s (Up s k)
| uses_Down k : uses s k → uses s (Down s k)
| uses_UpChan k : (∀ l, handle s l → uses s (k l)) → uses s (UpChan s k)
| uses_DownChan l k : handle s l → uses s k → uses s (DownChan s l k)
| uses_Go body k : uses s body → uses s k → uses s (Go body k)
| uses_Wait l k : handle s l → uses s k → uses s (Recv l (λ _, k)).

(** The goroutine [UpChan] starts, for the lock channel at address [a]. *)
Definition helper (a : nat) : prog :=
  Send (lock s0) VUnit (Close (Some a) Done).

(** The code a goroutine other than the manager can be running. *)
Inductive thread : prog → Prop :=
| thread_uses p : uses s0 p → thread p
| thread_spawn a k : uses s0 k → thread (Go (helper a) k)
| thread_helper a : thread (helper a)
| thread_close a : thread (Close (Some a) Done).

(** The channel a goroutine is going to close. *)
Fixpoint closer (p : prog) : option nat :=
  match p with
  | Send _ _ k => closer k
  | Close c _ => c
  | Go body _ => closer body
  | _ => None
  end.

Definition closes (g : goroutine) : option nat :=
  match g with
  | GProg p => closer p
  | GManager _ _ => None
  end.

Definition member (g : goroutine) : Prop :=
  match g with
  | GProg p => thread p
  | GManager _ _ => False
  end.

(** The three channels of the struct are open, with the capacities
    [NewDynaphore] gave them, and their buffers within capacity. *)
Definition core_ok (h : list hchan) : Prop :=
  ∀ a, (a < 3)%nat →
    ∃ ch, h !! a = Some ch ∧ closed ch = false ∧
          qcap ch = Nat.min a 1 ∧ (length (buf ch) ≤ qcap ch)%nat.

(** Who closes what: every channel some goroutine is going to close is a
    lock channel made by [UpChan], still open, and no two goroutines are
    going to close the same channel. *)
Definition owned (h : list hchan) (os : list (option nat)) : Prop :=
  (∀ i a, os !! i = Some (Some a) →
     (3 ≤ a)%nat ∧ ∃ ch, h !! a = Some ch ∧ closed ch = false) ∧
  (∀ i j a, os !! i = Some (Some a) → os !! j = Some (Some a) → i = j).

Definition crew (gs : list goroutine) : Prop :=
  ∀ j g, j ≠ 1%nat → gs !! j = Some g → member g.

(** The worlds after [NewDynaphore max0] has returned: the manager is
    goroutine 1 and runs on [s0] with its counters in range (before it has
    taken its first maximum, [max0] is the head of the [max] buffer); the
    other goroutines run client code or [UpChan]'s helper; nothing is ever
    sent on a lock channel. *)
Record tidy (max0 : Z) (w : world) : Prop := Tidy {
  tidy_core : core_ok (heap w);
  tidy_ints : ∀ ch, heap w !! 2%nat = Some ch → Forall is_int (buf ch);
  tidy_manager :
    ∃ st, gs w !! 1%nat = Some (GManager s0 st) ∧ good_st st ∧
      (st = MStart →
         ∃ ch b, heap w !! 2%nat = Some ch ∧ buf ch = VInt max0 :: b);
  tidy_handles : ∀ a ch, (3 ≤ a)%nat → heap w !! a = Some ch → buf ch = [];
  tidy_threads : crew (gs w);
  tidy_owned : owned (heap w) (closes <$> gs w)
}.

(** Does the step [c] move goroutine [i]? *)
Definition touches (c : choice) (i : nat) : bool :=
  match c with
  | Tau j | Alone j _ => bool_decide (i = j)
  | Sync j _ k _ => bool_decide (i = j) || bool_decide (i = k)
  end.

(** ** Counting what the manager does *)

Definition at_zero (w : world) (i : nat) : bool :=
  match gs w !! i with
  | Some (GManager _ (MLoop 0 _)) => true
  | _ => false
  end.

(** Does the step [c] from [w] service a release while no lock is out (the
    branch of [manager] that leaves [current] alone)? *)
Definition absorbed (w : world) (c : choice) : bool :=
  match c with
  | Tau _ => false
  | Alone i n => at_zero w i && bool_decide (n = case_unlock)
  | Sync i1 n1 i2 n2 =>
      (at_zero w i1 && bool_decide (n1 = case_unlock))
      || (at_zero w i2 && bool_decide (n2 = case_unlock))
  end.

Fixpoint count_absorbed (w : world) (cs : list choice) : nat :=
  match cs with
  | [] => 0
  | c :: cs' =>
      match exec w c with
      | Some w' => ((if absorbed w c then 1 else 0) + count_absorbed w' cs')%nat
      | None => 0%nat
      end
  end.

(** The manager's [current], 0 before the manager exists or has reached
    its loop. *)
Definition locks_out (w : world) : Z :=
  match gs w !! 1%nat with
  | Some (GManager _ (MLoop current _)) => current
  | _ => 0
  end.

(** How many elements of [l] satisfy [f]. *)
Fixpoint tally {A : Type} (f : A → bool) (l : list A) : nat :=
  match l with
  | [] => 0
  | x :: l' => ((if f x then 1 else 0) + tally f l')%nat
  end.

(** A goroutine about to execute [close]. *)
Definition is_closing (g : goroutine) : bool :=
  match g with
  | GProg (Close _ _) => true
  | _ => false
  end.

(** The manager's [max] in [w]; none while the manager has not read one. *)
Definition max_now (w : world) : option Z :=
  match gs w !! 1%nat with
  | Some (GManager _ (MLoop _ mx)) => Some mx
  | _ => None
  end.

(** The larger of two maxima, where one may be missing. *)
Definition larger (a b : option Z) : option Z :=
  match a, b with
  | Some x, Some y => Some (Z.max x y)
  | Some x, None => Some x
  | None, _ => b
  end.

(** The largest [max] the manager has had along the run [cs] from [w]; none
    if the manager has not had one. *)
Fixpoint peak (w : world) (cs : list choice) : option Z :=
  match cs with
  | [] => max_now w
  | c :: cs' =>
      match exec w c with
      | Some w' => larger (max_now w) (peak w' cs')
      | None => max_now w
      end
  end.

(** * Proofs *)

(** ** Arithmetic *)

Lemma wrap_id z : in_int z → wrap z = z.
Proof.
  unfold in_int, wrap, min_int, max_int, int_bits. intros Hz.
  rewrite Z.mod_small; lia.
Qed.

Lemma in_int_0 : in_int 0.
Proof. unfold in_int, min_int, max_int, int_bits. lia. Qed.

Lemma max_int_pos : 0 < max_int.
Proof. unfold max_int, int_bits. lia. Qed.

Lemma min_int_neg : min_int < 0.
Proof. unfold min_int, int_bits. lia. Qed.

Lemma in_int_small z : -1000 ≤ z ≤ 1000 → in_int z.
Proof. unfold in_int, min_int, max_int, int_bits. lia. Qed.

Lemma is_int_int_of v : is_int v → in_int (int_of v).
Proof. by destruct v. Qed.

(** ** Inversion of a step *)

Lemma exec_inv w c w' :
  exec w c = Some w' →
  match c with
  | Tau i =>
      ∃ g h' g' new, gs w !! i = Some g ∧
        tau (heap w) g = Some (h', g', new) ∧
        w' = World h' (<[i := g']> (gs w) ++ new)
  | Alone i n =>
      ∃ g o h' g', gs w !! i = Some g ∧ offers g !! n = Some o ∧
        alone (heap w) o = Some (h', g') ∧
        w' = World h' (<[i := g']> (gs w))
  | Sync i n j m =>
      i ≠ j ∧
      ∃ gi oi gj oj gi' gj', gs w !! i = Some gi ∧ offers gi !! n = Some oi ∧
        gs w !! j = Some gj ∧ offers gj !! m = Some oj ∧
        sync (heap w) oi oj = Some (gi', gj') ∧
        w' = World (heap w) (<[j := gj']> (<[i := gi']> (gs w)))
  end.
Proof.
  intros He. destruct c as [i|i n|i n j m]; simpl in He.
  - destruct (gs w !! i) as [g|]; simplify_eq/=.
    destruct (tau (heap w) g) as [[[h' g'] new]|] eqn:Ht; simplify_eq/=.
    by exists g, h', g', new.
  - destruct (gs w !! i) as [g|]; simplify_eq/=.
    destruct (offers g !! n) as [o|] eqn:Ho; simplify_eq/=.
    destruct (alone (heap w) o) as [[h' g']|] eqn:Ha; simplify_eq/=.
    by exists g, o, h', g'.
  - destruct (decide (i = j)) as [->|Hne];
      [by rewrite bool_decide_eq_true_2 in He|].
    rewrite bool_decide_eq_false_2 in He by done. split; [done|].
    destruct (gs w !! i) as [gi|]; simplify_eq/=.
    destruct (offers gi !! n) as [oi|] eqn:Hoi; simplify_eq/=.
    destruct (gs w !! j) as [gj|]; simplify_eq/=.
    destruct (offers gj !! m) as [oj|] eqn:Hoj; simplify_eq/=.
    destruct (sync (heap w) oi oj) as [[gi' gj']|] eqn:Hy; simplify_eq/=.
    by exists gi, oi, gj, oj, gi', gj'.
Qed.

Lemma sync_inv h os or gs' gr' :
  sync h os or = Some (gs', gr') →
  ∃ a v kr ch, os = OSend (Some a) v gs' ∧ or = ORecv (Some a) kr ∧
    gr' = kr v ∧ h !! a = Some ch ∧ closed ch = false ∧ buf ch = [].
Proof.
  intros Hy. destruct os as [[a|] v ks|]; [|done..].
  destruct or as [|[a'|] kr]; [done| |done]. simpl in Hy.
  case_bool_decide; [|done]. subst a'.
  destruct (h !! a) as [ch|] eqn:Ha; [|done].
  destruct (closed ch) eqn:Hc; [done|].
  destruct (buf ch) eqn:Hb; simplify_eq.
  by exists a, v, kr, ch.
Qed.

(** ** The reachable worlds satisfy the invariants *)

Lemma api_safe p : api s0 p → safe p.
Proof.
  induction 1; simpl; try done; repeat split; try done.
Qed.

Lemma good_heap_insert_other h a ch :
  a ≠ 2%nat → good_heap h → good_heap (<[a := ch]> h).
Proof.
  intros Ha (ch2 & H2 & Hch). exists ch2. split; [|done].
  by rewrite list_lookup_insert_ne.
Qed.

Lemma good_heap_insert h ch :
  is_int (zero ch) → Forall is_int (buf ch) → good_heap h →
  good_heap (<[2%nat := ch]> h).
Proof.
  intros Hz Hb (ch2 & H2 & _). exists ch. split; [|done].
  apply list_lookup_insert_eq. by eapply lookup_lt_Some.
Qed.

Lemma tau_good h g h' g' new :
  good_heap h → good_g g → tau h g = Some (h', g', new) →
  good_heap h' ∧ good_g g' ∧ Forall good_g new.
Proof.
  intros Hh Hg Ht. destruct g as [p|]; [|done].
  destruct p as [| |c v k|c k|[a|] k|z cap k|body k|s k]; simpl in *;
    simplify_eq.
  - destruct (h !! a) as [ch|] eqn:Ha; [|done].
    destruct (closed ch) eqn:Hc; simplify_eq; [by split_and!|].
    split_and!; [|done|done].
    destruct (decide (a = 2%nat)) as [->|Hne].
    + pose proof Hh as (ch2 & H2 & Hz & Hb). simplify_eq.
      by apply good_heap_insert.
    + by apply good_heap_insert_other.
  - by split_and!.
  - split_and!; [|apply Hg|constructor].
    destruct Hh as (ch2 & H2 & Hch). exists ch2. split; [|done].
    by apply lookup_app_l_Some.
  - destruct Hg. split_and!; [done..|]. by constructor.
  - destruct Hg as [-> ?]. split_and!; [done..|]. by constructor.
Qed.

Lemma manager_good s st n sc :
  good_g (GManager s st) → manager s st !! n = Some sc →
  good_o (offer_of (GManager s) sc).
Proof.
  intros [-> Hst] Hn. destruct st as [|cur mx]; simpl in *.
  - destruct n as [|n]; simplify_eq/=.
    intros v _ Hv. split; [done|]. simpl.
    split; [pose proof max_int_pos; lia|].
    by apply is_int_int_of, Hv.
  - destruct Hst as [Hc Hm]. unfold in_int in Hm.
    destruct n as [|[|[|[|n]]]]; simplify_eq/=.
    + intros _ Hl _. case_bool_decide; [done|].
      rewrite wrap_id; [|pose proof min_int_neg; unfold in_int; lia].
      split; [done|]. simpl. unfold in_int. lia.
    + intros _ _ _. split; [done|]. case_bool_decide; simpl; [|done].
      rewrite wrap_id; [|pose proof min_int_neg; unfold in_int; lia].
      unfold in_int. lia.
    + done.
    + intros v _ Hv. split; [done|]. simpl. split; [done|].
      by apply is_int_int_of, Hv.
Qed.

Lemma offers_good g n o :
  good_g g → offers g !! n = Some o → good_o o.
Proof.
  intros Hg Hn. destruct g as [p|s st].
  - destruct p; simpl in *; try done;
      destruct n; simplify_eq/=; try done.
  - simpl in Hn. rewrite list_lookup_fmap in Hn.
    destruct (manager s st !! n) as [sc|] eqn:Hsc; simplify_eq/=.
    by eapply manager_good.
Qed.

Lemma alone_good h o h' g' :
  good_heap h → good_o o → alone h o = Some (h', g') →
  good_heap h' ∧ good_g g'.
Proof.
  intros Hh Ho Ha. destruct o as [[a|] v k|[a|] k]; simpl in *; try done.
  - destruct (h !! a) as [ch|] eqn:Hch; [|done].
    destruct (closed ch); simplify_eq; [done|].
    case_bool_decide; simplify_eq. destruct Ho as [Hv Hk]. split; [|done].
    destruct (decide (a = 2%nat)) as [->|Hne].
    + destruct (Hh) as (ch2 & H2 & Hz & Hb). simplify_eq.
      apply good_heap_insert; [done| |done]. simpl.
      apply Forall_app. split; [done|]. constructor; [|done]. by apply Hv.
    + by apply good_heap_insert_other.
  - destruct (h !! a) as [ch|] eqn:Hch; [|done].
    destruct (buf ch) as [|v b] eqn:Hb.
    + destruct (closed ch); simplify_eq. split; [done|].
      apply Ho; [done|]. intros [= ->].
      destruct Hh as (ch2 & H2 & Hz & _). by simplify_eq.
    + simplify_eq. destruct (decide (a = 2%nat)) as [->|Hne].
      * destruct (Hh) as (ch2 & H2 & Hz & Hbuf). simplify_eq.
        rewrite Hb in Hbuf. apply Forall_cons_1 in Hbuf as [Hv Hbuf].
        split; [by apply good_heap_insert|]. by apply Ho.
      * split; [by apply good_heap_insert_other|].
        apply Ho; [done|]. intros [=]. done.
Qed.

Lemma sync_good h os or gs' gr' :
  good_o os → good_o or → sync h os or = Some (gs', gr') →
  good_g gs' ∧ good_g gr'.
Proof.
  intros Hs Hr Hy.
  apply sync_inv in Hy as (a & v & kr & ch & -> & -> & -> & _).
  destruct Hs as [Hv Hk]. split; [done|]. by apply Hr.
Qed.

Lemma running_step w c w' :
  running w → exec w c = Some w' → running w'.
Proof.
  intros [Hh Hg] He. apply exec_inv in He.
  assert (∀ i g n o, gs w !! i = Some g → offers g !! n = Some o → good_o o)
    as Hoff.
  { intros i g n o Hi. apply offers_good. by eapply Forall_lookup_1. }
  destruct c as [i|i n|i n j m].
  - destruct He as (g & h' & g' & new & Hi & Ht & ->).
    eapply tau_good in Ht as (? & ? & ?); [|done|by eapply Forall_lookup_1].
    split; [done|]. simpl. apply Forall_app. split; [|done].
    by apply Forall_insert.
  - destruct He as (g & o & h' & g' & Hi & Ho & Ha & ->).
    eapply alone_good in Ha as [? ?]; [|done|exact (Hoff _ _ _ _ Hi Ho)].
    split; [done|]. by apply Forall_insert.
  - destruct He as (_ & gi & oi & gj & oj & gi' & gj'
                      & Hi & Hoi & Hj & Hoj & Hy & ->).
    eapply sync_good in Hy as [? ?];
      [|exact (Hoff _ _ _ _ Hi Hoi)|exact (Hoff _ _ _ _ Hj Hoj)].
    split; [done|]. simpl. apply Forall_insert; [|done].
    by apply Forall_insert.
Qed.

Lemma boot_run max0 client :
  run (start max0 client) boot_sched = Some (booted max0 client).
Proof. reflexivity. Qed.

Lemma booted_running max0 client :
  in_int max0 → (∀ s, api s (client s)) → running (booted max0 client).
Proof.
  intros Hm Hc. split.
  - exists (Hchan 1 (VInt 0) [VInt max0] false).
    split; [reflexivity|]. split; [apply in_int_0|].
    simpl. constructor; [done|constructor].
  - simpl. constructor; [by apply api_safe|].
    constructor; [done|constructor].
Qed.

(** A world with a single goroutine has no rendezvous. *)
Lemma exec_single w g c w' :
  gs w = [g] → exec w c = Some w' →
  (∃ h' g' new, c = Tau 0%nat ∧ tau (heap w) g = Some (h', g', new) ∧
     w' = World h' (g' :: new))
  ∨ (∃ n o h' g', c = Alone 0%nat n ∧ offers g !! n = Some o ∧
       alone (heap w) o = Some (h', g') ∧ w' = World h' [g']).
Proof.
  intros Hg He. apply exec_inv in He. rewrite Hg in He.
  destruct c as [i|i n|i n j m].
  - destruct He as (g1 & h' & g' & new & Hi & Ht & ->).
    destruct i as [|i]; [|done]. simplify_eq/=.
    left. by exists h', g', new.
  - destruct He as (g1 & o & h' & g' & Hi & Ho & Ha & ->).
    destruct i as [|i]; [|done]. simplify_eq/=.
    right. by exists n, o, h', g'.
  - destruct He as (Hne & gi & oi & gj & oj & gi' & gj'
                      & Hi & Hoi & Hj & Hoj & Hy & ->).
    destruct i as [|i]; [|done]. by destruct j as [|j].
Qed.

Lemma booting_step max0 client w c w' :
  booting max0 client w → exec w c = Some w' →
  booting max0 client w' ∨ w' = booted max0 client.
Proof.
  intros (n & Hn & Hr) He.
  destruct n as [|[|[|[|[|n]]]]]; [..|lia]; vm_compute in Hr; simplify_eq;
    (eapply exec_single in He; [|reflexivity]);
    destruct He
      as [(h' & g' & new & -> & Ht & ->)|(k & o & h' & g' & -> & Ho & Ha & ->)];
    try done; simplify_eq/=.
  - left. by exists 1%nat; split; [lia|].
  - left. by exists 2%nat; split; [lia|].
  - left. by exists 3%nat; split; [lia|].
  - destruct k; simplify_eq/=.
    left. by exists 4%nat; split; [lia|].
  - by right.
Qed.

Section Reachable.
Variable max0 : Z.
Variable client : dynaphore → prog.
Hypothesis max0_int : in_int max0.
Hypothesis client_api : ∀ s, api s (client s).

Lemma reachable_inv w :
  reachable (start max0 client) w → booting max0 client w ∨ running w.
Proof.
  induction 1 as [|w c w' _ [IH|IH] He].
  - left. by exists 0%nat; split; [lia|].
  - destruct (booting_step _ _ _ _ _ IH He) as [?| ->]; [by left|].
    right. by apply booted_running.
  - right. by eapply running_step.
Qed.

(** Every [manager] goroutine of a reachable world runs on the struct
    built by [NewDynaphore], with its counters in range. *)
Lemma reachable_manager w i s st :
  reachable (start max0 client) w →
  gs w !! i = Some (GManager s st) →
  s = s0 ∧ good_st st.
Proof.
  intros Hw Hi. destruct (reachable_inv _ Hw) as [(n & Hn & Hr)|[_ Hg]].
  - destruct n as [|[|[|[|[|n]]]]]; [..|lia]; vm_compute in Hr;
      simplify_eq; by destruct i.
  - by apply (Forall_lookup_1 _ _ _ _ Hg Hi).
Qed.
End Reachable.


Lemma run_reachable w0 cs w :
  run w0 cs = Some w → reachable w0 w.
Proof.
  intros Hr. cut (∀ w1, reachable w0 w1 → run w1 cs = Some w → reachable w0 w).
  { intros Hc. apply (Hc w0); [constructor|done]. }
  clear Hr. induction cs as [|c cs IH]; intros w1 H1 Hr; simpl in Hr.
  - by simplify_eq.
  - destruct (exec w1 c) as [w2|] eqn:He; simplify_eq/=.
    eapply IH; [|done]. by econstructor.
Qed.

(** ** One step, seen from a [manager] goroutine *)

(** A step in which no clause of the manager fires leaves it where it is. *)
Lemma manager_idle w c w' i s st :
  exec w c = Some w' → gs w !! i = Some (GManager s st) →
  (∀ n, fires c i n = false) →
  gs w' !! i = Some (GManager s st).
Proof.
  intros He Hi Hf. apply exec_inv in He.
  destruct c as [i'|i' n'|i1 n1 i2 n2].
  - destruct He as (g & h' & g' & new & Hi' & Ht & ->). simpl.
    destruct (decide (i = i')) as [->|Hne]; [by simplify_eq|].
    apply lookup_app_l_Some. by rewrite list_lookup_insert_ne.
  - destruct He as (g & o & h' & g' & Hi' & Ho & Ha & ->). simpl.
    destruct (decide (i = i')) as [->|Hne].
    + specialize (Hf n'). simpl in Hf.
      by rewrite bool_decide_eq_true_2 in Hf.
    + by rewrite list_lookup_insert_ne.
  - destruct He as (_ & gi & oi & gj & oj & gi' & gj'
                      & _ & _ & _ & _ & _ & ->). simpl.
    destruct (decide (i = i1)) as [->|Hne1].
    { specialize (Hf n1). simpl in Hf.
      by rewrite bool_decide_eq_true_2 in Hf. }
    destruct (decide (i = i2)) as [->|Hne2].
    { specialize (Hf n2). simpl in Hf.
      rewrite (bool_decide_eq_true_2 (i2 = i2 ∧ n2 = n2)) in Hf by done.
      by rewrite orb_true_r in Hf. }
    by rewrite !list_lookup_insert_ne.
Qed.

(** A step in which clause [n] of the manager fires: the clause is on a
    non-nil channel and the manager continues as the clause says. *)
Lemma manager_fires w c w' i s st n :
  exec w c = Some w' → gs w !! i = Some (GManager s st) →
  fires c i n = true →
  ∃ sc, manager s st !! n = Some sc ∧
    match sc with
    | CaseRecv ch k =>
        ch ≠ None ∧ ∃ v, received w c = Some v ∧
          gs w' !! i = Some (GManager s (k v))
    | CaseSend ch v k => ch ≠ None
    end.
Proof.
  intros He Hi Hf. pose proof (lookup_lt_Some _ _ _ Hi) as Hlt.
  apply exec_inv in He.
  destruct c as [i'|i' n'|i1 n1 i2 n2]; simpl in Hf; [done|..].
  - destruct He as (g & o & h' & g' & Hi' & Ho & Ha & ->).
    apply bool_decide_eq_true in Hf as [<- <-]. simplify_eq/=.
    rewrite Hi'. simpl. rewrite Ho. simpl.
    rewrite list_lookup_fmap in Ho.
    destruct (manager s st !! n) as [sc|] eqn:Hsc; simplify_eq/=.
    exists sc. split; [done|].
    destruct sc as [[a|] k|[a|] v k]; simpl in Ha; try done.
    split; [done|]. simpl.
    destruct (heap w !! a) as [ch|] eqn:Hch; simplify_eq/=.
    destruct (buf ch) as [|v b] eqn:Hb.
    + destruct (closed ch); simplify_eq/=. eexists. split; [done|].
      by rewrite list_lookup_insert_eq.
    + simplify_eq/=. eexists. split; [done|].
      by rewrite list_lookup_insert_eq.
  - destruct He as (Hne & gi & oi & gj & oj & gi' & gj'
                      & Hi1 & Hoi & Hi2 & Hoj & Hy & ->).
    apply sync_inv in Hy as (a & v & kr & ch & -> & -> & -> & _).
    simpl. rewrite Hi1. simpl. rewrite Hoi. simpl.
    apply orb_true_iff in Hf as [Hf|Hf];
      apply bool_decide_eq_true in Hf as [-> ->]; simplify_eq/=.
    + rewrite list_lookup_fmap in Hoi.
      destruct (manager s st !! n1) as [sc|] eqn:Hsc; simplify_eq/=.
      exists sc. split; [done|]. by destruct sc; simplify_eq/=.
    + rewrite list_lookup_fmap in Hoj.
      destruct (manager s st !! n2) as [sc|] eqn:Hsc; simplify_eq/=.
      exists sc. split; [done|]. destruct sc; simplify_eq/=.
      split; [done|]. eexists. split; [done|].
      rewrite list_lookup_insert_eq; [done|]. by rewrite length_insert.
Qed.

Lemma acquire_step w c w' i s cur mx :
  exec w c = Some w' → gs w !! i = Some (GManager s (MLoop cur mx)) →
  fires c i case_lock = true →
  cur < mx ∧ gs w' !! i = Some (GManager s (MLoop (wrap (cur + 1)) mx)).
Proof.
  intros He Hi Hf.
  destruct (manager_fires _ _ _ _ _ _ _ He Hi Hf) as (sc & Hsc & Hout).
  simpl in Hsc. simplify_eq. destruct Hout as (Hl & v & _ & Hi').
  split; [|done]. case_bool_decide; [done|lia].
Qed.

Lemma release_step w c w' i s cur mx :
  exec w c = Some w' → gs w !! i = Some (GManager s (MLoop cur mx)) →
  fires c i case_unlock = true →
  gs w' !! i =
    Some (GManager s (MLoop (if bool_decide (cur > 0)
                             then wrap (cur - 1) else cur) mx)).
Proof.
  intros He Hi Hf.
  destruct (manager_fires _ _ _ _ _ _ _ He Hi Hf) as (sc & Hsc & Hout).
  simpl in Hsc. simplify_eq. destruct Hout as (Hl & v & _ & Hi').
  rewrite Hi'. by case_bool_decide.
Qed.

Lemma query_step w c w' i s st :
  exec w c = Some w' → gs w !! i = Some (GManager s st) →
  fires c i case_current = true →
  current s ≠ None.
Proof.
  intros He Hi Hf.
  destruct (manager_fires _ _ _ _ _ _ _ He Hi Hf) as (sc & Hsc & Hout).
  destruct st; simpl in Hsc; by simplify_eq.
Qed.

(** The clauses of the [select] are numbered 0 to 3. *)
Lemma fires_loop_cases w c w' i s cur mx n :
  exec w c = Some w' → gs w !! i = Some (GManager s (MLoop cur mx)) →
  fires c i n = true →
  n = case_lock ∨ n = case_unlock ∨ n = case_current ∨ n = case_max.
Proof.
  intros He Hi Hf.
  destruct (manager_fires _ _ _ _ _ _ _ He Hi Hf) as (sc & Hsc & _).
  apply lookup_lt_Some in Hsc. simpl in Hsc.
  unfold case_lock, case_unlock, case_current, case_max. lia.
Qed.

(** A receive on the [nil] channel never completes. *)
Lemma nil_recv_stuck w c w' i k :
  exec w c = Some w' → gs w !! i = Some (GProg (Recv None k)) →
  gs w' !! i = Some (GProg (Recv None k)).
Proof.
  intros He Hi. apply exec_inv in He.
  destruct c as [i'|i' n'|i1 n1 i2 n2].
  - destruct He as (g & h' & g' & new & Hi' & Ht & ->). simpl.
    destruct (decide (i = i')) as [->|Hne]; [by simplify_eq|].
    apply lookup_app_l_Some. by rewrite list_lookup_insert_ne.
  - destruct He as (g & o & h' & g' & Hi' & Ho & Ha & ->). simpl.
    destruct (decide (i = i')) as [->|Hne].
    + simplify_eq/=. by destruct n'; simplify_eq/=.
    + by rewrite list_lookup_insert_ne.
  - destruct He as (_ & gi & oi & gj & oj & gi' & gj'
                      & Hi1 & Hoi & Hi2 & Hoj & Hy & ->). simpl.
    apply sync_inv in Hy as (a & v & kr & ch & -> & -> & -> & _).
    destruct (decide (i = i1)) as [->|Hne1].
    { simplify_eq/=. by destruct n1; simplify_eq/=. }
    destruct (decide (i = i2)) as [->|Hne2].
    { simplify_eq/=. by destruct n2; simplify_eq/=. }
    by rewrite !list_lookup_insert_ne.
Qed.

Lemma nil_recv_stuck_run cs : ∀ w w' i k,
  run w cs = Some w' → gs w !! i = Some (GProg (Recv None k)) →
  gs w' !! i = Some (GProg (Recv None k)).
Proof.
  induction cs as [|c cs IH]; intros w w' i k Hr Hi; simpl in Hr.
  - by simplify_eq.
  - destruct (exec w c) as [w1|] eqn:He; simplify_eq/=.
    eapply IH; [done|]. by eapply nil_recv_stuck.
Qed.

(** ** The repository's tests, replayed *)

(** TestDynaphore: with three locks out of three, the fourth [Up()] blocks. *)
Example test_fourth_Up_blocks :
  let w := scenario 3 client_test [up_main; up_main; up_main; Tau 0] in
  gs w !! 1%nat = Some (GManager s0 (MLoop 3 3)) ∧ exec w up_main = None.
Proof. split; reflexivity. Qed.

(** Once the other goroutine's [Down()] is serviced, it is granted. *)
Example test_Down_unblocks :
  gs (scenario 3 client_test
        [up_main; up_main; up_main; Tau 0; Alone 2 0; Alone 1 case_unlock;
         up_main]) !! 1%nat
    = Some (GManager s0 (MLoop 3 3)).
Proof. reflexivity. Qed.

(** The fourth [Down()] of the main goroutine finds no lock out. *)
Example test_extra_Down_noop :
  let w := scenario 3 client_test
             ([up_main; up_main; up_main; Tau 0; Alone 2 0;
               Alone 1 case_unlock; up_main]
              ++ down_main ++ down_main ++ down_main ++ down_main) in
  gs w !! 0%nat = Some (GProg Done) ∧
  gs w !! 1%nat = Some (GManager s0 (MLoop 0 3)).
Proof. split; reflexivity. Qed.

(** TestDynaphore_SetMax: raising the maximum from 1 to 3 lets both pending
    [UpChan()] through and their lock channels get closed; after lowering it
    to 2 with three locks out, a third [UpChan()] is granted only after two
    [Down()]. *)
Example test_SetMax :
  let raised := [up_main; Tau 0; Tau 0; Tau 0; Tau 0] ++ setmax_main
                ++ [Sync 2 0 1 case_lock; Sync 3 0 1 case_lock; Tau 2; Tau 3] in
  let lowered := raised ++ setmax_main ++ [Tau 0; Tau 0] in
  let w3 := scenario 1 client_test_setmax lowered in
  let w2 := scenario 1 client_test_setmax (lowered ++ down_main) in
  let w1 := scenario 1 client_test_setmax (lowered ++ down_main ++ down_main) in
  gs (scenario 1 client_test_setmax raised) !! 1%nat
    = Some (GManager s0 (MLoop 3 3)) ∧
  closed <$> heap (scenario 1 client_test_setmax raised)
    = [false; false; false; true; true] ∧
  gs w3 !! 1%nat = Some (GManager s0 (MLoop 3 2)) ∧
  exec w3 (Sync 4 0 1 case_lock) = None ∧
  gs w2 !! 1%nat = Some (GManager s0 (MLoop 2 2)) ∧
  exec w2 (Sync 4 0 1 case_lock) = None ∧
  gs w1 !! 1%nat = Some (GManager s0 (MLoop 1 2)) ∧
  (gs <$> exec w1 (Sync 4 0 1 case_lock)) ≫= (.!! 1%nat)
    = Some (GManager s0 (MLoop 2 2)).
Proof. repeat split; reflexivity. Qed.

(** ** One iteration of the arbitration loop *)

(** C1. In every reachable world, a step that services the acquire clause
    of the arbitration loop starts from [current < max]; with
    [current >= max] the clause does not fire, whatever is pending; and right
    after a serviced acquire the manager holds [current + 1 <= max]. *)
Theorem acquire_below_max max0 client w c w' i s cur mx :
  in_int max0 → (∀ s, api s (client s)) →
  reachable (start max0 client) w →
  exec w c = Some w' →
  gs w !! i = Some (GManager s (MLoop cur mx)) →
  (cur >= mx → fires c i case_lock = false) ∧
  (fires c i case_lock = true →
     cur < mx ∧
     ∃ cur', gs w' !! i = Some (GManager s (MLoop cur' mx)) ∧
             cur' = cur + 1 ∧ cur' ≤ mx).
Proof.
  intros Hm Hc Hw He Hi.
  destruct (reachable_manager _ _ Hm Hc _ _ _ _ Hw Hi) as [_ [Hcur Hmx]].
  assert (fires c i case_lock = true →
          cur < mx ∧ gs w' !! i = Some (GManager s (MLoop (cur + 1) mx)))
    as Hacq.
  { intros Hf. destruct (acquire_step _ _ _ _ _ _ _ He Hi Hf) as [Hlt Hi'].
    split; [done|]. rewrite Hi'. rewrite wrap_id; [done|].
    unfold in_int in *. pose proof min_int_neg. lia. }
  split.
  - intros Hge. destruct (fires c i case_lock) eqn:Hf; [|done].
    destruct (Hacq eq_refl) as [Hlt _]. lia.
  - intros Hf. destruct (Hacq Hf) as [Hlt Hi']. split; [done|].
    exists (cur + 1). split; [done|]. lia.
Qed.

Lemma acquire_below_max_witness :
  gs (scenario 1 client_up_up []) !! 1%nat = Some (GManager s0 (MLoop 0 1)) ∧
  fires (Sync 0 0 1 0) 1 case_lock = true ∧
  (0 < 1 ∧ ∃ cur', gs (scenario 1 client_up_up [Sync 0 0 1 0]) !! 1%nat
                     = Some (GManager s0 (MLoop cur' 1)) ∧
                   cur' = 0 + 1 ∧ cur' ≤ 1).
Proof.
  split; [reflexivity|]. split; [reflexivity|].
  apply (acquire_below_max 1 client_up_up (scenario 1 client_up_up [])
           (Sync 0 0 1 0) (scenario 1 client_up_up [Sync 0 0 1 0])
           1%nat s0 0 1).
  - apply in_int_small. lia.
  - intros s. apply api_Up, api_Up, api_Done.
  - apply (run_reachable _ (boot_sched ++ [Alone 1 0])). reflexivity.
  - reflexivity.
  - reflexivity.
  - reflexivity.
Defined.

(** C2. In every reachable world the manager's [current] is at least 0; and
    a step that services a release while [current = 0] leaves [current] at
    0. *)
Theorem current_nonneg max0 client w i s cur mx :
  in_int max0 → (∀ s, api s (client s)) →
  reachable (start max0 client) w →
  gs w !! i = Some (GManager s (MLoop cur mx)) →
  0 ≤ cur ∧
  ∀ c w', exec w c = Some w' → fires c i case_unlock = true → cur = 0 →
          gs w' !! i = Some (GManager s (MLoop 0 mx)).
Proof.
  intros Hm Hc Hw Hi.
  destruct (reachable_manager _ _ Hm Hc _ _ _ _ Hw Hi) as [_ [Hcur Hmx]].
  split; [lia|]. intros c w' He Hf ->.
  by rewrite (release_step _ _ _ _ _ _ _ He Hi Hf).
Qed.

Lemma current_nonneg_witness :
  0 ≤ 0 ∧
  gs (scenario 1 client_down [Alone 0 0; Alone 1 1]) !! 1%nat
    = Some (GManager s0 (MLoop 0 1)).
Proof.
  destruct (current_nonneg 1 client_down (scenario 1 client_down [Alone 0 0])
              1%nat s0 0 1) as [H0 Hrel].
  - apply in_int_small. lia.
  - intros s. apply api_Down, api_Done.
  - apply (run_reachable _ (boot_sched ++ [Alone 1 0; Alone 0 0])).
    reflexivity.
  - reflexivity.
  - split; [exact H0|].
    apply (Hrel (Alone 1 1)); reflexivity.
Defined.

(** C5. A serviced acquire (possible only with [current < max]) adds
    exactly 1 to [current]; a serviced release with [current > 0] subtracts
    exactly 1; [max] is unchanged by both. *)
Theorem serviced_delta max0 client w c w' i s cur mx :
  in_int max0 → (∀ s, api s (client s)) →
  reachable (start max0 client) w →
  exec w c = Some w' →
  gs w !! i = Some (GManager s (MLoop cur mx)) →
  (fires c i case_lock = true →
     cur < mx ∧ gs w' !! i = Some (GManager s (MLoop (cur + 1) mx))) ∧
  (fires c i case_unlock = true → cur > 0 →
     gs w' !! i = Some (GManager s (MLoop (cur - 1) mx))).
Proof.
  intros Hm Hc Hw He Hi.
  destruct (reachable_manager _ _ Hm Hc _ _ _ _ Hw Hi) as [_ [Hcur Hmx]].
  unfold in_int in Hmx. pose proof min_int_neg. split.
  - intros Hf. destruct (acquire_step _ _ _ _ _ _ _ He Hi Hf) as [Hlt Hi'].
    split; [done|]. rewrite Hi', wrap_id; [done|]. unfold in_int. lia.
  - intros Hf Hpos. rewrite (release_step _ _ _ _ _ _ _ He Hi Hf).
    rewrite bool_decide_eq_true_2 by done.
    rewrite wrap_id; [done|]. unfold in_int. lia.
Qed.

Lemma serviced_delta_witness :
  (fires (Sync 0 0 1 0) 1 case_lock = true →
     0 < 1 ∧ gs (scenario 1 client_up_up [Sync 0 0 1 0]) !! 1%nat
             = Some (GManager s0 (MLoop (0 + 1) 1))) ∧
  (fires (Sync 0 0 1 0) 1 case_unlock = true → 0 > 0 →
     gs (scenario 1 client_up_up [Sync 0 0 1 0]) !! 1%nat
       = Some (GManager s0 (MLoop (0 - 1) 1))).
Proof.
  apply (serviced_delta 1 client_up_up (scenario 1 client_up_up [])
           (Sync 0 0 1 0) (scenario 1 client_up_up [Sync 0 0 1 0])
           1%nat s0 0 1).
  - apply in_int_small. lia.
  - intros s. apply api_Up, api_Up, api_Done.
  - apply (run_reachable _ (boot_sched ++ [Alone 1 0])). reflexivity.
  - reflexivity.
  - reflexivity.
Defined.

(** C6. From any world whatever, a step that services the maximum-update
    clause stores the delivered value in [max] and leaves [current] as it
    was, also when the new maximum is below [current]. *)
Theorem update_sets_max w c w' i s cur mx :
  exec w c = Some w' →
  gs w !! i = Some (GManager s (MLoop cur mx)) →
  fires c i case_max = true →
  ∃ v, received w c = Some v ∧
       gs w' !! i = Some (GManager s (MLoop cur (int_of v))).
Proof.
  intros He Hi Hf.
  destruct (manager_fires _ _ _ _ _ _ _ He Hi Hf) as (sc & Hsc & Hout).
  simpl in Hsc. simplify_eq. destruct Hout as (Hl & v & Hv & Hi').
  by exists v.
Qed.

Lemma update_sets_max_witness :
  ∃ v, received (scenario 1 client_setmax [Alone 0 0]) (Alone 1 3) = Some v ∧
       gs (scenario 1 client_setmax [Alone 0 0; Alone 1 3]) !! 1%nat
         = Some (GManager s0 (MLoop 0 (int_of v))).
Proof.
  apply (update_sets_max (scenario 1 client_setmax [Alone 0 0]) (Alone 1 3)
           (scenario 1 client_setmax [Alone 0 0; Alone 1 3]) 1%nat s0 0 1);
    reflexivity.
Defined.

(** C8. In every reachable world whose manager holds [max = 0], no step
    services the acquire clause, whatever [current] is; and [max] stays 0
    unless the step services a maximum-update. *)
Theorem zero_max_no_acquire max0 client w c w' i s cur :
  in_int max0 → (∀ s, api s (client s)) →
  reachable (start max0 client) w →
  exec w c = Some w' →
  gs w !! i = Some (GManager s (MLoop cur 0)) →
  fires c i case_lock = false ∧
  (fires c i case_max = false →
     ∃ cur', gs w' !! i = Some (GManager s (MLoop cur' 0))).
Proof.
  intros Hm Hc Hw He Hi.
  destruct (reachable_manager _ _ Hm Hc _ _ _ _ Hw Hi) as [_ [Hcur Hmx]].
  assert (fires c i case_lock = false) as Hl.
  { destruct (fires c i case_lock) eqn:Hf; [|done].
    destruct (acquire_step _ _ _ _ _ _ _ He Hi Hf) as [Hlt _]. lia. }
  split; [done|]. intros Hnm.
  destruct (fires c i case_unlock) eqn:Hu.
  { eexists. by apply (release_step _ _ _ _ _ _ _ He Hi Hu). }
  exists cur. apply (manager_idle _ _ _ _ _ _ He Hi). intros n.
  destruct (fires c i n) eqn:Hf; [|done].
  destruct (fires_loop_cases _ _ _ _ _ _ _ _ He Hi Hf) as [-> | [-> | [-> | ->]]];
    try congruence.
  destruct (reachable_manager _ _ Hm Hc _ _ _ _ Hw Hi) as [-> _].
  by destruct (query_step _ _ _ _ _ _ He Hi Hf).
Qed.

Lemma zero_max_no_acquire_witness :
  fires (Alone 0 0) 1 case_lock = false ∧
  (fires (Alone 0 0) 1 case_max = false →
     ∃ cur', gs (scenario 0 client_down [Alone 0 0]) !! 1%nat
              = Some (GManager s0 (MLoop cur' 0))).
Proof.
  split; [reflexivity|]. intros _.
  destruct (zero_max_no_acquire 0 client_down (scenario 0 client_down [])
              (Alone 0 0) (scenario 0 client_down [Alone 0 0]) 1%nat s0 0)
    as [_ Hkeep].
  - apply in_int_small. lia.
  - intros s. apply api_Down, api_Done.
  - apply (run_reachable _ (boot_sched ++ [Alone 1 0])). reflexivity.
  - reflexivity.
  - reflexivity.
  - exact (Hkeep eq_refl).
Defined.

(** C10. In every reachable world whose manager holds a negative [max]
    (taken at start or delivered by an update), no step services the acquire
    clause, and the [select] waits on the same channels as with [max = 0]:
    the lock clause is on the [nil] channel. *)
Theorem negative_max_no_acquire max0 client w c w' i s cur mx :
  in_int max0 → (∀ s, api s (client s)) →
  reachable (start max0 client) w →
  exec w c = Some w' →
  gs w !! i = Some (GManager s (MLoop cur mx)) →
  mx < 0 →
  fires c i case_lock = false ∧
  clause_chan <$> manager s (MLoop cur mx)
    = clause_chan <$> manager s (MLoop cur 0) ∧
  clause_chan <$> manager s (MLoop cur mx) !! case_lock = Some None.
Proof.
  intros Hm Hc Hw He Hi Hneg.
  destruct (reachable_manager _ _ Hm Hc _ _ _ _ Hw Hi) as [_ [Hcur Hmx]].
  split.
  { destruct (fires c i case_lock) eqn:Hf; [|done].
    destruct (acquire_step _ _ _ _ _ _ _ He Hi Hf) as [Hlt _]. lia. }
  simpl. rewrite !bool_decide_eq_true_2 by lia. done.
Qed.

Lemma negative_max_no_acquire_witness :
  fires (Alone 0 0) 1 case_lock = false ∧
  clause_chan <$> manager s0 (MLoop 0 (-1))
    = clause_chan <$> manager s0 (MLoop 0 0) ∧
  clause_chan <$> manager s0 (MLoop 0 (-1)) !! case_lock = Some None.
Proof.
  apply (negative_max_no_acquire (-1) client_down (scenario (-1) client_down [])
           (Alone 0 0) (scenario (-1) client_down [Alone 0 0]) 1%nat s0 0 (-1)).
  - apply in_int_small. lia.
  - intros s. apply api_Down, api_Done.
  - apply (run_reachable _ (boot_sched ++ [Alone 1 0])). reflexivity.
  - reflexivity.
  - reflexivity.
  - lia.
Defined.

(** C9. In every reachable world, the struct the manager runs on has a
    [nil] [current] channel; no step executes the query-reply clause of the
    [select]; and a goroutine that has called [Current()] on that struct is
    still inside the call after every further run of the program. *)
Theorem Current_blocks_forever max0 client w j s st :
  in_int max0 → (∀ s, api s (client s)) →
  reachable (start max0 client) w →
  gs w !! j = Some (GManager s st) →
  current s = None ∧
  (∀ c w', exec w c = Some w' → fires c j case_current = false) ∧
  (∀ i k cs w', gs w !! i = Some (GProg (Current s k)) →
     run w cs = Some w' → gs w' !! i = Some (GProg (Current s k))).
Proof.
  intros Hm Hc Hw Hj.
  destruct (reachable_manager _ _ Hm Hc _ _ _ _ Hw Hj) as [-> _].
  split; [done|]. split.
  - intros c w' He. destruct (fires c j case_current) eqn:Hf; [|done].
    by destruct (query_step _ _ _ _ _ _ He Hj Hf).
  - intros i k cs w' Hi Hr. by eapply nil_recv_stuck_run.
Qed.

Lemma Current_blocks_forever_witness :
  current s0 = None ∧
  fires (Alone 0 0) 1 case_current = false ∧
  gs (scenario 1 client_query [Tau 0; Alone 0 0; Alone 1 1]) !! 2%nat
    = Some (GProg (Current s0 (λ _, Done))).
Proof.
  destruct (Current_blocks_forever 1 client_query
              (scenario 1 client_query [Tau 0]) 1%nat s0 (MLoop 0 1))
    as (Hnil & Hq & Hblock).
  - apply in_int_small. lia.
  - intros s. apply api_Go; [apply api_Current; intros _|apply api_Down];
      apply api_Done.
  - apply (run_reachable _ (boot_sched ++ [Alone 1 0; Tau 0])). reflexivity.
  - reflexivity.
  - split; [exact Hnil|]. split.
    + apply (Hq (Alone 0 0) (scenario 1 client_query [Tau 0; Alone 0 0])).
      reflexivity.
    + apply (Hblock 2%nat (λ _, Done) [Alone 0 0; Alone 1 1]); reflexivity.
Defined.

(** C4 does not hold of the code: in the program
    [NewDynaphore(3).Current()], the calling goroutine never gets past the
    call, in any run. *)
Theorem Current_never_returns w :
  reachable (start 3 client_current) w →
  gs w !! 0%nat ≠ Some (GProg Done).
Proof.
  intros Hw.
  assert (booting 3 client_current w ∨
          gs w !! 0%nat = Some (GProg (Current s0 (λ _, Done)))) as [Hb|Hc].
  { induction Hw as [|w c w' _ [IH|IH] He].
    - left. by exists 0%nat; split; [lia|].
    - destruct (booting_step _ _ _ _ _ IH He) as [?| ->]; [by left|].
      by right.
    - right. by eapply nil_recv_stuck. }
  - destruct Hb as (n & Hn & Hr).
    destruct n as [|[|[|[|[|n]]]]]; [..|lia]; vm_compute in Hr;
      by simplify_eq.
  - by rewrite Hc.
Qed.

Lemma Current_never_returns_witness :
  gs (scenario 3 client_current []) !! 0%nat ≠ Some (GProg Done).
Proof.
  apply Current_never_returns.
  apply (run_reachable _ (boot_sched ++ [Alone 1 0])). reflexivity.
Defined.





(** ** Raising the maximum while tasks are blocked: proofs *)

Lemma shape_step newMax p b cur mx ws c w' :
  p = SetMax s0 newMax Done ∨ p = Done →
  Forall up_or_done ws →
  exec (shape p b cur mx ws) c = Some w' →
  (c = Alone 0 0 ∧ p = SetMax s0 newMax Done ∧ b = [] ∧
     w' = shape Done [VInt newMax] cur mx ws)
  ∨ (∃ v b', c = Alone 1 case_max ∧ b = v :: b' ∧
       w' = shape p b' cur (int_of v) ws)
  ∨ (c = Sync 0 0 1 case_max ∧ p = SetMax s0 newMax Done ∧ b = [] ∧
       w' = shape Done [] cur newMax ws)
  ∨ (∃ j, c = Sync (2 + j) 0 1 case_lock ∧
       ws !! j = Some (GProg (Up s0 Done)) ∧ cur < mx ∧
       w' = shape p b (wrap (cur + 1)) mx (<[j := GProg Done]> ws)).
Proof.
  intros Hp Hws He.
  assert (∀ j g, ws !! j = Some g → up_or_done g) as Hw.
  { intros j g. apply Forall_lookup_1, Hws. }
  destruct c as [i|i n|i n j m]; [simpl in He..|].
  - destruct i as [|[|i]]; simpl in He; [|done|].
    + by destruct Hp as [-> | ->].
    + destruct (ws !! i) as [g|] eqn:Hi; [|done].
      by destruct (Hw _ _ Hi) as [-> | ->].
  - destruct i as [|[|i]]; simpl in He.
    + destruct Hp as [-> | ->]; [|by destruct n].
      destruct n as [|n]; [|done]. simpl in He.
      destruct b as [|v b']; [|done]. simplify_eq/=. by left.
    + destruct n as [|[|[|[|n]]]]; simpl in He; try done.
      * by case_bool_decide.
      * destruct b as [|v b']; simplify_eq/=.
        right; left. by exists v, b'.
    + destruct (ws !! i) as [g|] eqn:Hi; [|done].
      destruct (Hw _ _ Hi) as [-> | ->]; by destruct n.
  - apply exec_inv in He as (Hne & gi & oi & gj & oj & gi' & gj'
                               & Hi & Hoi & Hj & Hoj & Hy & ->).
    apply sync_inv in Hy as (a & v & kr & ch & -> & -> & -> & Ha & Hc & Hb).
    simpl in Hi, Hj, Ha.
    assert (j = 1%nat) as ->.
    { destruct j as [|[|j]]; [|done|]; simplify_eq/=.
      - destruct Hp as [-> | ->]; by destruct m.
      - destruct (Hw _ _ Hj) as [-> | ->]; by destruct m. }
    simplify_eq/=.
    destruct i as [|[|i]]; [|done|]; simplify_eq/=.
    + destruct Hp as [-> | ->]; [|by destruct n].
      destruct n as [|n]; [|done]. simplify_eq/=.
      destruct m as [|[|[|[|m]]]]; simplify_eq/=.
      * by case_bool_decide.
      * right; right; left. by simplify_eq/=.
    + destruct (Hw _ _ Hi) as [-> | ->]; [|by destruct n].
      destruct n as [|n]; [|done]. simplify_eq/=.
      destruct m as [|[|[|[|m]]]]; simplify_eq/=.
      case_bool_decide; simplify_eq/=.
      right; right; right. exists i. split_and!; [done..|lia|done].
Qed.

Lemma ndone_replicate N : ndone (replicate N (GProg (Up s0 Done))) = 0%nat.
Proof. induction N as [|N IH]; simpl; [done|]. by rewrite IH. Qed.

Lemma up_or_done_replicate N :
  Forall up_or_done (replicate N (GProg (Up s0 Done))).
Proof. apply Forall_replicate. by left. Qed.

Lemma ndone_le ws : (ndone ws ≤ length ws)%nat.
Proof. induction ws as [|g ws IH]; simpl; [done|]. destruct (is_done g); lia. Qed.

Lemma ndone_insert ws j :
  ws !! j = Some (GProg (Up s0 Done)) →
  ndone (<[j := GProg Done]> ws) = S (ndone ws).
Proof.
  revert j. induction ws as [|g ws IH]; intros [|j] Hj; simplify_eq/=.
  - done.
  - rewrite (IH _ Hj). lia.
Qed.

Lemma exists_waiter ws :
  Forall up_or_done ws → (ndone ws < length ws)%nat →
  ∃ j, ws !! j = Some (GProg (Up s0 Done)).
Proof.
  induction 1 as [|g ws [-> | ->] _ IH]; simpl; intros Hlt.
  - lia.
  - by exists 0%nat.
  - destruct IH as [j Hj]; [lia|]. by exists (S j).
Qed.

Lemma stage_ndone cur mx newMax N w g r :
  stage cur mx newMax N w g r → ndone (drop 2 (gs w)) = g.
Proof.
  destruct 1; simpl; rewrite ?drop_0; by rewrite ?ndone_replicate.
Qed.

Lemma stage_step cur mx newMax N w g r c w' :
  0 ≤ cur → mx ≤ cur → in_int newMax →
  stage cur mx newMax N w g r → exec w c = Some w' →
  ∃ g' r', stage cur mx newMax N w' g' r' ∧ (r' < r)%nat ∧
    g' = (g + (if serviced w c case_lock then 1 else 0))%nat ∧
    serviced w c case_unlock = false.
Proof.
  intros Hcur Hmx Hnm Hst He. unfold in_int in Hnm.
  assert (stage cur mx newMax N (shape Done [] cur newMax
            (replicate N (GProg (Up s0 Done)))) 0
            (Nat.min N (Z.to_nat (newMax - cur)) - 0)) as Hraised.
  { replace cur with (cur + Z.of_nat 0) at 2 by lia.
    apply stage_raised; [by rewrite length_replicate
      |apply up_or_done_replicate|apply ndone_replicate|lia]. }
  destruct Hst as [| |ws g Hlen Hws Hg HgK].
  - apply (shape_step newMax) in He
      as [(-> & _ & _ & ->)|[(v & b' & _ & ? & _)|[(-> & _ & _ & ->)
          |(j & _ & _ & ? & _)]]];
      [|done| |lia|by left|apply up_or_done_replicate].
    + eexists _, _. split; [apply stage_sent|]. split; [lia|]. done.
    + eexists _, _. split; [apply Hraised|]. split; [lia|]. done.
  - apply (shape_step newMax) in He
      as [(_ & ? & _)|[(v & b' & -> & ? & ->)|[(_ & ? & _)
          |(j & _ & _ & ? & _)]]];
      [done| |done|lia|by right|apply up_or_done_replicate].
    simplify_eq/=. eexists _, _. split; [apply Hraised|]. split; [lia|]. done.
  - apply (shape_step newMax) in He
      as [(_ & ? & _)|[(v & b' & _ & ? & _)|[(_ & ? & _)
          |(j & -> & Hj & Hlt & ->)]]];
      [done|done|done| |by right|done].
    subst g N. pose proof (ndone_insert _ _ Hj) as Hins.
    pose proof (ndone_le (<[j := GProg Done]> ws)) as Hle.
    rewrite length_insert in Hle.
    rewrite wrap_id by (pose proof min_int_neg; unfold in_int; lia).
    exists (S (ndone ws)), (Nat.min (length ws) (Z.to_nat (newMax - cur))
                             - S (ndone ws))%nat.
    split_and!.
    + replace (cur + Z.of_nat (ndone ws) + 1)
        with (cur + Z.of_nat (S (ndone ws))) by lia.
      apply stage_raised; [by rewrite length_insert
        |by apply Forall_insert; [|right]|done|lia].
    + lia.
    + unfold serviced, is_loop. simpl. rewrite Hj. simpl. lia.
    + unfold serviced, is_loop. simpl. by rewrite Hj.
Qed.

Lemma stage_run cur mx newMax N cs : ∀ w g r w',
  0 ≤ cur → mx ≤ cur → in_int newMax →
  stage cur mx newMax N w g r → run w cs = Some w' →
  ∃ g' r', stage cur mx newMax N w' g' r' ∧
    (length cs + r' ≤ r)%nat ∧
    (count case_lock w cs + g)%nat = g' ∧
    count case_unlock w cs = 0%nat.
Proof.
  induction cs as [|c cs IH]; intros w g r w' Hcur Hmx Hnm Hst Hr;
    simpl in Hr.
  - simplify_eq. exists g, r. by split_and!.
  - destruct (exec w c) as [w1|] eqn:He; [|done]. simpl in Hr.
    destruct (stage_step _ _ _ _ _ _ _ _ _ Hcur Hmx Hnm Hst He)
      as (g1 & r1 & Hst1 & Hr1 & Hg1 & Hu).
    destruct (IH _ _ _ _ Hcur Hmx Hnm Hst1 Hr)
      as (g' & r' & Hst' & Hlen & Hcnt & Hrel).
    exists g', r'. simpl. rewrite He, Hu, Hrel.
    split_and!; [done|lia|lia|done].
Qed.

Lemma stage_progress cur mx newMax N w g r :
  stage cur mx newMax N w g r →
  (g < Nat.min N (Z.to_nat (newMax - cur)))%nat →
  ∃ c w', exec w c = Some w'.
Proof.
  intros [| |ws g' Hlen Hws Hg HgK] Hlt.
  - by exists (Alone 0 0), (shape Done [VInt newMax] cur mx
                             (replicate N (GProg (Up s0 Done)))).
  - by exists (Alone 1 case_max), (shape Done [] cur newMax
                                    (replicate N (GProg (Up s0 Done)))).
  - destruct (exists_waiter ws Hws) as [j Hj]; [lia|].
    exists (Sync (2 + j) 0 1 case_lock). simpl. rewrite Hj. simpl.
    rewrite bool_decide_eq_false_2 by lia. simpl. eauto.
Qed.

(** C3. [N] goroutines are blocked in [Up()] with the manager at
    [current >= max], and [SetMax(newMax)] is called with
    [newMax > current].  In every run that follows, with no other goroutine
    around: no release is serviced; the [Up()] calls that have returned are
    the acquires serviced; as long as fewer than [min(N, newMax - current)]
    permits are granted a step is possible; no run is longer than
    [2 + min(N, newMax - current)] steps; and when nothing can move any
    more, exactly [min(N, newMax - current)] permits have been granted. *)
Theorem raise_max_grants cur mx newMax N cs w :
  0 ≤ cur → mx ≤ cur → cur < newMax → in_int newMax →
  run (waiting cur mx newMax N) cs = Some w →
  let granted := Z.of_nat (count case_lock (waiting cur mx newMax N) cs) in
  let K := Z.min (Z.of_nat N) (newMax - cur) in
  count case_unlock (waiting cur mx newMax N) cs = 0%nat ∧
  Z.of_nat (ndone (drop 2 (gs w))) = granted ∧
  granted ≤ K ∧
  Z.of_nat (length cs) ≤ 2 + K ∧
  (granted < K → ∃ c w', exec w c = Some w') ∧
  ((∀ c, exec w c = None) → granted = K).
Proof.
  intros Hcur Hmx Hlt Hnm Hr.
  destruct (stage_run _ _ _ _ _ _ _ _ _ Hcur Hmx Hnm
              (stage_call cur mx newMax N) Hr)
    as (g & r & Hst & Hlen & Hcnt & Hrel).
  rewrite Nat.add_0_r in Hcnt. rewrite Hcnt. simpl.
  assert (g ≤ Nat.min N (Z.to_nat (newMax - cur)))%nat as HgK.
  { inversion Hst; lia. }
  assert (Z.of_nat g < Z.min (Z.of_nat N) (newMax - cur) →
          ∃ c w', exec w c = Some w') as Hprog.
  { intros Hg. apply (stage_progress _ _ _ _ _ _ _ Hst). lia. }
  split_and!; [done|by rewrite (stage_ndone _ _ _ _ _ _ _ Hst)|lia|lia|done|].
  intros Hq.
  destruct (decide (Z.of_nat g < Z.min (Z.of_nat N) (newMax - cur)))
    as [Hg|Hg]; [|lia].
  destruct (Hprog Hg) as (c & w' & He). by rewrite Hq in He.
Qed.

Lemma raise_max_grants_witness :
  let cs := [Alone 0 0; Alone 1 3; Sync 2 0 1 0; Sync 4 0 1 0] in
  scenario 1 client_raise [Sync 0 0 1 0; Tau 0; Tau 0; Tau 0]
    = waiting 1 1 3 3 ∧
  count case_lock (waiting 1 1 3 3) cs = 2%nat ∧
  ∃ w, run (waiting 1 1 3 3) cs = Some w ∧
    Z.of_nat (ndone (drop 2 (gs w))) = 2 ∧
    (2 < Z.min 3 (3 - 1) → ∃ c w', exec w c = Some w') ∧
    ((∀ c, exec w c = None) → 2 = Z.min 3 (3 - 1)).
Proof.
  split; [reflexivity|]. split; [reflexivity|].
  eexists. split; [reflexivity|].
  destruct (raise_max_grants 1 1 3 3
              [Alone 0 0; Alone 1 3; Sync 2 0 1 0; Sync 4 0 1 0]
              (shape Done [] 3 3 [GProg Done; GProg (Up s0 Done); GProg Done]))
    as (_ & Hd & _ & _ & Hp & Hq).
  - lia.
  - lia.
  - lia.
  - apply in_int_small. lia.
  - reflexivity.
  - split; [exact Hd|]. split; [exact Hp|exact Hq].
Defined.

(** * Further properties of the implementation *)

Lemma handle_fresh a : (3 ≤ a)%nat → handle s0 (Some a).
Proof. intros Ha. repeat split; intros [=]; lia. Qed.

Lemma handle_core a : handle s0 (Some a) → (3 ≤ a)%nat.
Proof.
  intros (H0 & H1 & H2).
  destruct a as [|[|[|a]]]; [by destruct H0|by destruct H1|by destruct H2|lia].
Qed.

(** What client code looks like, by its first statement. *)
Lemma uses_inv p :
  uses s0 p →
  match p with
  | Done => True
  | Send c v k =>
      uses s0 k ∧
      ((c = lock s0 ∧ v = VUnit) ∨ (c = unlock s0 ∧ v = VUnit)
       ∨ (c = max s0 ∧ is_int v))
  | Recv c k => handle s0 c ∧ ∀ v, uses s0 (k v)
  | Make z cap k =>
      z = VUnit ∧ cap = 0%nat ∧
      ∃ k', k = (λ l, Go (Send (lock s0) VUnit (Close l Done)) (k' l)) ∧
            ∀ l, handle s0 l → uses s0 (k' l)
  | Go body k => uses s0 body ∧ uses s0 k
  | Panic | Close _ _ | GoManager _ _ => False
  end.
Proof.
  destruct 1 as [|n k Hn Hk|k Hk|k Hk|k Hk|k Hk|l k Hl Hk|body k Hb Hk|l k Hl Hk];
    simpl; try done.
  - split; [done|]. right; right. done.
  - split; [done|]. by left.
  - split; [done|]. right; left. done.
  - split; [done|]. split; [done|]. by exists k.
  - split; [|done]. apply uses_Wait; [done|]. apply uses_Down, uses_Done.
Qed.

Lemma uses_closer p : uses s0 p → closer p = None.
Proof. induction 1; simpl; done. Qed.

Lemma thread_closer p a : thread p → closer p = Some a → p ≠ Panic.
Proof. by destruct 1 as [p Hp| | |]; [rewrite (uses_closer _ Hp)|..]. Qed.

(** *** Ownership of the lock channels *)

Lemma owned_keep h h' os :
  (∀ a ch, h !! a = Some ch → closed ch = false →
     ∃ ch', h' !! a = Some ch' ∧ closed ch' = false) →
  owned h os → owned h' os.
Proof.
  intros Hh [Hopen Hinj]. split; [|done]. intros i a Hi.
  destruct (Hopen _ _ Hi) as (Ha & ch & Hch & Hc). split; [done|].
  by apply (Hh a ch).
Qed.

Lemma owned_drop h os i : owned h os → owned h (<[i := None]> os).
Proof.
  intros [Hopen Hinj].
  assert (∀ j a, <[i := None]> os !! j = Some (Some a) →
                 j ≠ i ∧ os !! j = Some (Some a)) as Hl.
  { intros j a Hj. destruct (decide (j = i)) as [->|Hne].
    - apply list_lookup_insert_Some in Hj as [(_ & ? & _)|[? _]]; done.
    - by rewrite list_lookup_insert_ne in Hj. }
  split.
  - intros j a Hj. apply Hl in Hj as [_ Hj]. by eapply Hopen.
  - intros j1 j2 a H1 H2. apply Hl in H1 as [_ H1]. apply Hl in H2 as [_ H2].
    by eapply Hinj.
Qed.

Lemma owned_app_None h os : owned h os → owned h (os ++ [None]).
Proof.
  intros [Hopen Hinj].
  assert (∀ j a, (os ++ [None]) !! j = Some (Some a) →
                 os !! j = Some (Some a)) as Hl.
  { intros j a Hj. apply lookup_app_Some in Hj as [Hj|[_ Hj]]; [done|].
    by destruct (j - length os)%nat. }
  split.
  - intros j a Hj. by eapply Hopen, Hl.
  - intros j1 j2 a H1 H2. by eapply Hinj; apply Hl.
Qed.

(** A goroutine hands the channel it was going to close to the goroutine
    it starts. *)
Lemma owned_move h os i o :
  os !! i = Some o → owned h os → owned h (<[i := None]> os ++ [o]).
Proof.
  intros Hi [Hopen Hinj]. pose proof (lookup_lt_Some _ _ _ Hi) as Hlt.
  assert (∀ j a, (<[i := None]> os ++ [o]) !! j = Some (Some a) →
            (j ≠ i ∧ (j < length os)%nat ∧ os !! j = Some (Some a))
            ∨ (j = length os ∧ o = Some a)) as Hl.
  { intros j a Hj. apply lookup_app_Some in Hj as [Hj|[Hge Hj]].
    - left. destruct (decide (j = i)) as [->|Hne].
      + apply list_lookup_insert_Some in Hj as [(_ & ? & _)|[? _]]; done.
      + rewrite list_lookup_insert_ne in Hj by done.
        split; [done|]. split; [by eapply lookup_lt_Some|done].
    - right. rewrite length_insert in Hge, Hj.
      destruct (j - length os)%nat as [|n] eqn:Hn; simplify_eq/=.
      split; [lia|done]. }
  split.
  - intros j a Hj. apply Hl in Hj as [(_ & _ & Hj)|[_ ->]]; by eapply Hopen.
  - intros j1 j2 a H1 H2.
    apply Hl in H1 as [(Hn1 & Hl1 & H1)|[-> ->]];
      apply Hl in H2 as [(Hn2 & Hl2 & H2)|[-> ?]]; simplify_eq.
    + by eapply Hinj.
    + destruct Hn1. by eapply Hinj.
    + destruct Hn2. by eapply Hinj.
    + done.
Qed.

(** [make] gives a channel nobody is going to close yet. *)
Lemma owned_fresh h os i ch :
  (3 ≤ length h)%nat → closed ch = false →
  owned h os → owned (h ++ [ch]) (<[i := Some (length h)]> os).
Proof.
  intros H3 Hc [Hopen Hinj].
  assert (∀ j a, <[i := Some (length h)]> os !! j = Some (Some a) →
            (j = i ∧ a = length h)
            ∨ (j ≠ i ∧ os !! j = Some (Some a) ∧ (a < length h)%nat)) as Hl.
  { intros j a Hj. destruct (decide (j = i)) as [->|Hne].
    - apply list_lookup_insert_Some in Hj as [(_ & ? & _)|[? _]]; [|done].
      left. by simplify_eq.
    - rewrite list_lookup_insert_ne in Hj by done. right.
      split; [done|]. split; [done|].
      destruct (Hopen _ _ Hj) as (_ & ch' & Hch' & _).
      by eapply lookup_lt_Some. }
  split.
  - intros j a Hj. apply Hl in Hj as [[_ ->]|(_ & Hj & _)].
    + split; [done|]. exists ch. split; [|done].
      rewrite lookup_app_r by done. by rewrite Nat.sub_diag.
    + destruct (Hopen _ _ Hj) as (Ha & ch' & Hch' & Hc'). split; [done|].
      exists ch'. split; [|done]. by apply lookup_app_l_Some.
  - intros j1 j2 a H1 H2.
    apply Hl in H1 as [[-> ->]|(Hn1 & H1 & Hlt1)];
      apply Hl in H2 as [[-> ?]|(Hn2 & H2 & Hlt2)]; simplify_eq; try lia;
      try done.
    by eapply Hinj.
Qed.

(** [close]: the goroutine that was going to close the channel is the only
    one, and no longer is. *)
Lemma owned_close h os i a ch :
  os !! i = Some (Some a) → h !! a = Some ch →
  owned h os → owned (<[a := set_closed ch]> h) (<[i := None]> os).
Proof.
  intros Hi Ha Hown. pose proof (owned_drop _ _ i Hown) as [Hopen' Hinj'].
  destruct Hown as [Hopen Hinj]. split; [|done].
  intros j b Hj. destruct (Hopen' _ _ Hj) as (Hb & chb & Hchb & Hcb).
  split; [done|]. exists chb. split; [|done].
  destruct (decide (b = a)) as [->|Hne]; [|by rewrite list_lookup_insert_ne].
  destruct (decide (j = i)) as [->|Hji].
  - apply list_lookup_insert_Some in Hj as [(_ & ? & _)|[? _]]; done.
  - rewrite list_lookup_insert_ne in Hj by done.
    destruct Hji. by eapply Hinj.
Qed.

(** *** The struct's channels *)

Lemma core_ok_length h : core_ok h → (3 ≤ length h)%nat.
Proof.
  intros Hc. destruct (Hc 2%nat) as (ch & Hch & _); [lia|].
  apply lookup_lt_Some in Hch. lia.
Qed.

Lemma core_ok_app h ch : core_ok h → core_ok (h ++ [ch]).
Proof.
  intros Hc a Ha. destruct (Hc a Ha) as (ch' & Hch' & ?).
  exists ch'. split; [|done]. by apply lookup_app_l_Some.
Qed.

Lemma core_ok_insert h a ch' :
  core_ok h →
  ((a < 3)%nat → closed ch' = false ∧ qcap ch' = Nat.min a 1 ∧
                 (length (buf ch') ≤ qcap ch')%nat) →
  core_ok (<[a := ch']> h).
Proof.
  intros Hc Hch' b Hb. destruct (Hc b Hb) as (ch & Hch & ?).
  destruct (decide (b = a)) as [->|Hne].
  - exists ch'. split; [|by apply Hch'].
    apply list_lookup_insert_eq. by eapply lookup_lt_Some.
  - exists ch. by rewrite list_lookup_insert_ne.
Qed.

Lemma keep_set_buf (h : list hchan) (a : nat) ch b (a0 : nat) ch0 :
  h !! a = Some ch → h !! a0 = Some ch0 → closed ch0 = false →
  ∃ ch', <[a := set_buf ch b]> h !! a0 = Some ch' ∧ closed ch' = false.
Proof.
  intros Ha Ha0 Hc. destruct (decide (a0 = a)) as [->|Hne].
  - exists (set_buf ch b). split.
    + apply list_lookup_insert_eq. by eapply lookup_lt_Some.
    + by simplify_eq.
  - exists ch0. by rewrite list_lookup_insert_ne.
Qed.

(** *** What the goroutines can do *)

Lemma thread_tau h p h' g' new :
  thread p → (3 ≤ length h)%nat →
  (∀ a, closer p = Some a → ∃ ch, h !! a = Some ch ∧ closed ch = false) →
  tau h (GProg p) = Some (h', g', new) →
  member g' ∧
  ((h' = h ++ [Hchan 0 VUnit [] false] ∧ closer p = None ∧
      closes g' = Some (length h) ∧ new = [])
   ∨ (h' = h ∧ closes g' = None ∧
        ∃ b, new = [b] ∧ member b ∧ closes b = closer p)
   ∨ (∃ a ch, closer p = Some a ∧ h !! a = Some ch ∧
        h' = <[a := set_closed ch]> h ∧ closes g' = None ∧ new = [])).
Proof.
  intros Hp H3 Hopen Ht. destruct Hp as [p Hu|a k Hk|a|a]; simpl in Ht.
  - apply uses_inv in Hu. destruct p; simplify_eq/=; try done.
    + destruct Hu as (-> & -> & k' & -> & Hk'). split.
      * apply thread_spawn. by apply Hk', handle_fresh.
      * left. done.
    + destruct Hu as [Hb Hk]. split; [by apply thread_uses|].
      right; left. split; [done|]. split; [by apply uses_closer|].
      exists (GProg p1). split; [done|]. split; [by apply thread_uses|done].
  - simplify_eq. split; [by apply thread_uses|].
    right; left. split; [done|]. split; [by apply uses_closer|].
    exists (GProg (helper a)). split; [done|]. split; [apply thread_helper|done].
  - done.
  - destruct (Hopen a eq_refl) as (ch & Hch & Hc). rewrite Hch, Hc in Ht.
    simplify_eq. split; [apply thread_uses, uses_Done|].
    right; right. by exists a, ch.
Qed.

Lemma thread_offers p n o :
  thread p → offers (GProg p) !! n = Some o →
  (∃ a v k, o = OSend (Some a) v (GProg k) ∧ (a < 3)%nat ∧
     (a = 2%nat → is_int v) ∧ thread k ∧ closer k = closer p)
  ∨ (∃ c k, o = ORecv c (λ v, GProg (k v)) ∧ handle s0 c ∧
       closer p = None ∧ ∀ v, uses s0 (k v)).
Proof.
  intros Hp Ho. destruct Hp as [p Hu|a k Hk|a|a]; simpl in Ho.
  - pose proof (uses_closer _ Hu) as Hcl. apply uses_inv in Hu.
    destruct p; try done; destruct n; simplify_eq/=.
    + left. destruct Hu as [Hk [[-> ->]|[[-> ->]|[-> Hv]]]].
      * exists 0%nat, VUnit, p. split_and!; [done|lia|done|by apply thread_uses|].
        by rewrite uses_closer.
      * exists 1%nat, VUnit, p. split_and!; [done|lia|done|by apply thread_uses|].
        by rewrite uses_closer.
      * exists 2%nat, v, p. split_and!; [done|lia|done|by apply thread_uses|].
        by rewrite uses_closer.
    + right. destruct Hu as [Hc Hk]. by exists c, k.
  - done.
  - destruct n; simplify_eq/=. left.
    exists 0%nat, VUnit, (Close (Some a) Done).
    split_and!; [done|lia|done|apply thread_close|done].
  - done.
Qed.

Lemma manager_offer st n o :
  offers (GManager s0 st) !! n = Some o →
  (∃ v k, o = OSend None v k)
  ∨ (∃ c k, o = ORecv c (λ v, GManager s0 (k v)) ∧
       (c = None ∨ ∃ a, c = Some a ∧ (a < 3)%nat) ∧ ∀ v, k v ≠ MStart).
Proof.
  intros Ho. simpl in Ho. rewrite list_lookup_fmap in Ho.
  destruct st as [|cur mx]; simpl in Ho.
  - destruct n; simplify_eq/=. right. eexists _, _. split; [done|].
    split; [right; exists 2%nat; split; [done|lia]|done].
  - destruct n as [|[|[|[|n]]]]; simplify_eq/=.
    + right. eexists _, _. split; [done|]. split; [|done].
      case_bool_decide; [by left|right; exists 0%nat; split; [done|lia]].
    + right. eexists _, (λ _, if bool_decide (cur > 0)
                               then MLoop (wrap (cur - 1)) mx
                               else MLoop cur mx).
      split; [f_equal; by case_bool_decide|].
      split; [right; exists 1%nat; split; [done|lia]|].
      intros _. by case_bool_decide.
    + left. by eexists _, _.
    + right. eexists _, _. split; [done|].
      split; [right; exists 2%nat; split; [done|lia]|done].
Qed.

Lemma alone_send h a v k h' g' :
  core_ok h → (a < 3)%nat →
  alone h (OSend (Some a) v k) = Some (h', g') →
  g' = k ∧ ∃ ch, h !! a = Some ch ∧ (length (buf ch) < qcap ch)%nat ∧
    h' = <[a := set_buf ch (buf ch ++ [v])]> h.
Proof.
  intros Hc Ha Hal. destruct (Hc a Ha) as (ch & Hch & Hcl & _).
  simpl in Hal. rewrite Hch, Hcl in Hal. case_bool_decide; simplify_eq.
  split; [done|]. by exists ch.
Qed.

Lemma alone_recv h c k h' g' :
  alone h (ORecv c k) = Some (h', g') →
  ∃ a ch v, c = Some a ∧ h !! a = Some ch ∧ g' = k v ∧
    ((∃ b, buf ch = v :: b ∧ h' = <[a := set_buf ch b]> h)
     ∨ (buf ch = [] ∧ closed ch = true ∧ v = zero ch ∧ h' = h)).
Proof.
  intros Hal. destruct c as [a|]; [|done]. simpl in Hal.
  destruct (h !! a) as [ch|] eqn:Hch; [|done].
  destruct (buf ch) as [|v b] eqn:Hb.
  - destruct (closed ch) eqn:Hcl; simplify_eq.
    exists a, ch, (zero ch). split_and!; [done..|]. by right.
  - simplify_eq. exists a, ch, v. split_and!; [done..|]. left. by exists b.
Qed.

Lemma crew_insert gs i g' :
  crew gs → (i ≠ 1%nat → member g') → crew (<[i := g']> gs).
Proof.
  intros Hc Hg j g Hj Hl. destruct (decide (j = i)) as [->|Hne].
  - apply list_lookup_insert_Some in Hl as [(_ & <- & _)|[? _]]; [|done].
    by apply Hg.
  - rewrite list_lookup_insert_ne in Hl by done. by eapply Hc.
Qed.

Lemma crew_app gs new : crew gs → Forall member new → crew (gs ++ new).
Proof.
  intros Hc Hn j g Hj Hl. apply lookup_app_Some in Hl as [Hl|[_ Hl]].
  - by eapply Hc.
  - by eapply Forall_lookup_1.
Qed.

(** *** The invariant is kept *)

Lemma tidy_tau max0 w i w' :
  tidy max0 w → exec w (Tau i) = Some w' → tidy max0 w'.
Proof.
  intros [Hcore Hints (st & Hm & Hst & Hfirst) Hhan Hcrew Hown] He.
  pose proof (core_ok_length _ Hcore) as H3.
  apply exec_inv in He as (g & h' & g' & new & Hi & Ht & ->).
  assert (i ≠ 1%nat) as Hi1. { intros ->. by simplify_eq. }
  pose proof (Hcrew _ _ Hi1 Hi) as Hmem. destruct g as [p|]; [|done].
  assert ((closes <$> gs w) !! i = Some (closer p)) as Hoi.
  { by rewrite list_lookup_fmap, Hi. }
  assert (∀ a, closer p = Some a →
            (3 ≤ a)%nat ∧ ∃ ch, heap w !! a = Some ch ∧ closed ch = false)
    as Hopen.
  { intros a Ha. apply (proj1 Hown i). by rewrite Hoi, Ha. }
  destruct (thread_tau _ _ _ _ _ Hmem H3 (λ a Ha, proj2 (Hopen a Ha)) Ht)
    as [Hg' Hcases].
  assert ((<[i := g']> (gs w) ++ new) !! 1%nat = Some (GManager s0 st)) as Hm'.
  { apply lookup_app_l_Some. by rewrite list_lookup_insert_ne. }
  assert (h' !! 2%nat = heap w !! 2%nat ∧ core_ok h' ∧ Forall member new ∧
          owned h' (<[i := closes g']> (closes <$> gs w) ++ (closes <$> new)) ∧
          ∀ a ch, (3 ≤ a)%nat → h' !! a = Some ch → buf ch = [])
    as (H2 & Hcore' & Hnew & Hown' & Hhan').
  { destruct Hcases as [(-> & Hcl & Hcg & ->)|[(-> & Hcg & b & -> & Hb & Hcb)
                        |(a & ch & Hcl & Hch & -> & Hcg & ->)]].
    - split_and!; [by rewrite lookup_app_l by lia|by apply core_ok_app|done| |].
      + simpl. rewrite app_nil_r, Hcg. by apply owned_fresh.
      + intros a ch Ha Hch. apply lookup_app_Some in Hch as [Hch|[_ Hch]].
        * by eapply Hhan.
        * by destruct (a - length (heap w))%nat; simplify_eq/=.
    - split_and!; [done|done|by constructor| |done].
      simpl. rewrite Hcg, Hcb. by apply owned_move.
    - destruct (Hopen a Hcl) as [Ha _].
      split_and!; [by rewrite list_lookup_insert_ne by lia
                  |apply core_ok_insert; [done|lia]|done| |].
      + simpl. rewrite app_nil_r, Hcg. apply owned_close; [|done..].
        by rewrite Hoi, Hcl.
      + intros a0 ch0 Ha0 Hch0. destruct (decide (a0 = a)) as [->|Hne].
        * apply list_lookup_insert_Some in Hch0 as [(_ & <- & _)|[? _]];
            [|done]. simpl. by eapply Hhan.
        * rewrite list_lookup_insert_ne in Hch0 by done. by eapply Hhan. }
  constructor; simpl.
  - done.
  - intros ch. rewrite H2. apply Hints.
  - exists st. split; [done|]. split; [done|]. rewrite H2. done.
  - done.
  - apply crew_app; [|done]. by apply crew_insert.
  - by rewrite fmap_app, list_fmap_insert.
Qed.

Lemma core_ok_set_buf h a ch b :
  core_ok h → h !! a = Some ch →
  ((a < 3)%nat → (length b ≤ qcap ch)%nat) →
  core_ok (<[a := set_buf ch b]> h).
Proof.
  intros Hc Ha Hb. apply core_ok_insert; [done|]. intros Ha3.
  destruct (Hc a Ha3) as (ch' & Hch' & Hcl & Hq & _). simplify_eq/=.
  split_and!; [done..|]. by apply Hb.
Qed.

Lemma tidy_alone max0 w i n w' :
  tidy max0 w → exec w (Alone i n) = Some w' → tidy max0 w'.
Proof.
  intros [Hcore Hints (st & Hm & Hst & Hfirst) Hhan Hcrew Hown] He.
  apply exec_inv in He as (g & o & h' & g' & Hi & Ho & Hal & ->).
  assert (<[i := closes g]> (closes <$> gs w) = closes <$> gs w) as Hsame.
  { apply list_insert_id. by rewrite list_lookup_fmap, Hi. }
  destruct (decide (i = 1%nat)) as [->|Hi1].
  - (* the manager receives *)
    rewrite Hm in Hi. simplify_eq.
    pose proof (offers_good (GManager s0 st) n o (conj eq_refl Hst) Ho) as Hgo.
    destruct (manager_offer _ _ _ Ho) as [(v & k & ->)|(c & k & -> & Hc & Hk)];
      [done|].
    apply alone_recv in Hal as (a & ch & v & -> & Hch & -> & Hbuf).
    destruct Hc as [|(? & [= <-] & Ha)]; [done|].
    destruct (Hcore a Ha) as (ch' & Hch' & Hcl & Hq & Hlen). simplify_eq.
    destruct Hbuf as [(b & Hb & ->)|(_ & ? & _)]; [|congruence].
    assert (a = 2%nat → is_int v) as Hv.
    { intros ->. apply Hints in Hch. rewrite Hb in Hch.
      by apply Forall_cons_1 in Hch as [? _]. }
    constructor; simpl.
    + apply core_ok_set_buf; [done..|]. rewrite Hb in Hlen. simpl in Hlen. lia.
    + intros ch2 H2. destruct (decide (a = 2%nat)) as [->|Hne].
      * rewrite list_lookup_insert_eq in H2 by (by eapply lookup_lt_Some).
        simplify_eq/=. apply Hints in Hch. rewrite Hb in Hch.
        by apply Forall_cons_1 in Hch as [_ ?].
      * rewrite list_lookup_insert_ne in H2 by done. by apply Hints.
    + exists (k v). split.
      { apply list_lookup_insert_eq. by eapply lookup_lt_Some. }
      split; [|by intros ?; destruct (Hk v)].
      destruct (Hgo v) as [_ ?]; [done|intros [= ->]; by apply Hv|done].
    + intros a0 ch0 Ha0. rewrite list_lookup_insert_ne by lia. by apply Hhan.
    + by apply crew_insert.
    + rewrite list_fmap_insert. simpl. simpl in Hsame. rewrite Hsame.
      eapply owned_keep; [|done]. intros a0 ch0. by apply keep_set_buf.
  - (* a client goroutine sends or receives *)
    pose proof (Hcrew _ _ Hi1 Hi) as Hmem. destruct g as [p|]; [|done].
    assert ((<[i := g']> (gs w)) !! 1%nat = Some (GManager s0 st)) as Hm'.
    { by rewrite list_lookup_insert_ne. }
    destruct (thread_offers _ _ _ Hmem Ho)
      as [(a & v & k & -> & Ha & Hv & Hk & Hck)|(c & k & -> & Hc & Hcp & Hk)].
    + apply alone_send in Hal as (-> & ch & Hch & Hroom & ->); [|done..].
      constructor; simpl.
      * apply core_ok_set_buf; [done..|]. rewrite length_app. simpl. lia.
      * intros ch2 H2. destruct (decide (a = 2%nat)) as [->|Hne].
        -- rewrite list_lookup_insert_eq in H2 by (by eapply lookup_lt_Some).
           simplify_eq/=. apply Forall_app. split; [by apply Hints|].
           constructor; [by apply Hv|done].
        -- rewrite list_lookup_insert_ne in H2 by done. by apply Hints.
      * exists st. split; [done|]. split; [done|]. intros Hs.
        destruct (Hfirst Hs) as (ch2 & b & H2 & Hb).
        destruct (decide (a = 2%nat)) as [->|Hne].
        -- simplify_eq. exists (set_buf ch (buf ch ++ [v])), (b ++ [v]).
           split; [apply list_lookup_insert_eq; by eapply lookup_lt_Some|].
           simpl. by rewrite Hb.
        -- exists ch2, b. by rewrite list_lookup_insert_ne.
      * intros a0 ch0 Ha0. rewrite list_lookup_insert_ne by lia. by apply Hhan.
      * by apply crew_insert.
      * rewrite list_fmap_insert. simpl. rewrite Hck.
        change (closer p) with (closes (GProg p)). rewrite Hsame.
        eapply owned_keep; [|done]. intros a0 ch0. by apply keep_set_buf.
    + apply alone_recv in Hal as (a & ch & v & -> & Hch & -> & Hbuf).
      apply handle_core in Hc.
      assert (h' = heap w) as ->.
      { destruct Hbuf as [(b & Hb & ->)|(_ & _ & _ & ->)]; [|done].
        by rewrite (Hhan _ _ Hc Hch) in Hb. }
      constructor; simpl; [done|done| |done|..].
      * by exists st.
      * apply crew_insert; [done|]. intros _. by apply thread_uses.
      * rewrite list_fmap_insert. simpl. rewrite (uses_closer _ (Hk v)).
        rewrite <- Hcp. change (closer p) with (closes (GProg p)).
        by rewrite Hsame.
Qed.

(** A rendezvous is between a client goroutine, sending on one of the
    struct's channels, and the manager. *)
Lemma tidy_sync_inv max0 w i n j m w' :
  tidy max0 w → exec w (Sync i n j m) = Some w' →
  ∃ p a v k st kr,
    i ≠ 1%nat ∧ j = 1%nat ∧
    gs w !! i = Some (GProg p) ∧ thread p ∧
    offers (GProg p) !! n = Some (OSend (Some a) v (GProg k)) ∧
    (a < 3)%nat ∧ (a = 2%nat → is_int v) ∧ thread k ∧ closer k = closer p ∧
    gs w !! 1%nat = Some (GManager s0 st) ∧
    offers (GManager s0 st) !! m
      = Some (ORecv (Some a) (λ v, GManager s0 (kr v))) ∧
    (∀ v, kr v ≠ MStart) ∧
    (∃ ch, heap w !! a = Some ch ∧ buf ch = []) ∧
    w' = World (heap w)
           (<[1%nat := GManager s0 (kr v)]> (<[i := GProg k]> (gs w))).
Proof.
  intros [Hcore Hints (st & Hm & Hst & Hfirst) Hhan Hcrew Hown] He.
  apply exec_inv in He as (Hne & gi & oi & gj & oj & gi' & gj'
                             & Hi & Hoi & Hj & Hoj & Hy & ->).
  apply sync_inv in Hy as (a & v & kr & ch & -> & -> & -> & Hch & Hcl & Hb).
  assert (i ≠ 1%nat) as Hi1.
  { intros ->. rewrite Hm in Hi. simplify_eq.
    by destruct (manager_offer _ _ _ Hoi) as [(? & ? & ?)|(? & ? & ? & _)]. }
  pose proof (Hcrew _ _ Hi1 Hi) as Hmem. destruct gi as [p|]; [|done].
  destruct (thread_offers _ _ _ Hmem Hoi)
    as [(a' & v' & k & [= <- <- ->] & Ha & Hv & Hk & Hck)|(? & ? & ? & _)];
    [|done].
  assert (j = 1%nat) as ->.
  { destruct (decide (j = 1%nat)) as [|Hj1]; [done|].
    pose proof (Hcrew _ _ Hj1 Hj) as Hmj. destruct gj as [q|]; [|done].
    destruct (thread_offers _ _ _ Hmj Hoj)
      as [(? & ? & ? & ? & _)|(c & k' & [= <- _] & Hc & _)]; [done|].
    apply handle_core in Hc. lia. }
  rewrite Hm in Hj. simplify_eq.
  destruct (manager_offer _ _ _ Hoj)
    as [(? & ? & ?)|(c & k' & Heq & Hc & Hk')]; [done|].
  injection Heq as <- Hkr.
  assert (kr = λ v, GManager s0 (k' v)) as -> by done.
  exists p, a, v, k, st, k'. split_and!; try done. by exists ch.
Qed.

Lemma tidy_sync max0 w i n j m w' :
  tidy max0 w → exec w (Sync i n j m) = Some w' → tidy max0 w'.
Proof.
  intros Hw He.
  destruct (tidy_sync_inv _ _ _ _ _ _ _ Hw He)
    as (p & a & v & k & st & kr & Hi1 & -> & Hi & Hp & Hoi & Ha & Hv & Hk
          & Hck & Hm & Hoj & Hkr & _ & ->).
  destruct Hw as [Hcore Hints (st' & Hm' & Hst & Hfirst) Hhan Hcrew Hown].
  rewrite Hm in Hm'. simplify_eq.
  pose proof (offers_good (GManager s0 st') m _ (conj eq_refl Hst) Hoj) as Hgo.
  constructor; simpl; [done|done| |done|..].
  - exists (kr v). split.
    { apply list_lookup_insert_eq. rewrite length_insert.
      by eapply lookup_lt_Some. }
    split; [|by intros ?; destruct (Hkr v)].
    destruct (Hgo v) as [_ ?]; [done|intros [= ->]; by apply Hv|done].
  - apply crew_insert; [|done]. by apply crew_insert.
  - rewrite !list_fmap_insert. simpl. rewrite Hck.
    rewrite (list_insert_id (closes <$> gs w) i)
      by (by rewrite list_lookup_fmap, Hi).
    rewrite list_insert_id by (by rewrite list_lookup_fmap, Hm).
    done.
Qed.

Lemma tidy_step max0 w c w' :
  tidy max0 w → exec w c = Some w' → tidy max0 w'.
Proof.
  destruct c; [apply tidy_tau|apply tidy_alone|apply tidy_sync].
Qed.

Lemma tidy_run max0 cs : ∀ w w',
  tidy max0 w → run w cs = Some w' → tidy max0 w'.
Proof.
  induction cs as [|c cs IH]; intros w w' Hw Hr; simpl in Hr.
  - by simplify_eq.
  - destruct (exec w c) as [w1|] eqn:He; [|done].
    eapply IH; [|done]. by eapply tidy_step.
Qed.

Lemma booted_tidy max0 client :
  in_int max0 → uses s0 (client s0) → tidy max0 (booted max0 client).
Proof.
  intros Hm Hc. constructor; simpl.
  - intros [|[|[|a]]] Ha; [..|lia]; eexists; (split; [reflexivity|]);
      simpl; split_and!; try done; lia.
  - intros ch [= <-]. simpl. by constructor.
  - exists MStart. split_and!; [done..|]. intros _. by eexists _, _.
  - intros [|[|[|a]]] ch Ha Hch; simplify_eq/=; lia.
  - intros [|[|[|j]]] g Hj Hg; simplify_eq/=. by apply thread_uses.
  - rewrite (uses_closer _ Hc). split.
    + by intros [|[|[|i]]] a Hi.
    + by intros [|[|[|i]]] j a Hi.
Qed.

Lemma reachable_tidy max0 client w :
  in_int max0 → (∀ s, uses s (client s)) →
  reachable (start max0 client) w →
  booting max0 client w ∨ tidy max0 w.
Proof.
  intros Hm Hc. induction 1 as [|w c w' _ [IH|IH] He].
  - left. by exists 0%nat; split; [lia|].
  - destruct (booting_step _ _ _ _ _ IH He) as [?| ->]; [by left|].
    right. by apply booted_tidy.
  - right. by eapply tidy_step.
Qed.

Lemma thread_not_Panic p : thread p → p ≠ Panic.
Proof. destruct 1 as [p Hu| | |]; [|done..]. intros ->. by apply uses_inv in Hu. Qed.

Lemma uses_client_chan s : uses s (client_chan s).
Proof.
  apply uses_UpChan. intros l Hl. apply uses_DownChan; [done|apply uses_Done].
Qed.

(** X1. The program never panics: no goroutine sends on a closed channel
    or closes a channel that is nil or already closed, and the three
    channels of the struct are never closed. *)
Theorem never_panics max0 client w :
  in_int max0 → (∀ s, uses s (client s)) →
  reachable (start max0 client) w →
  (∀ i, gs w !! i ≠ Some (GProg Panic)) ∧
  (∀ a ch, (a < 3)%nat → heap w !! a = Some ch → closed ch = false).
Proof.
  intros Hm Hc Hw.
  destruct (reachable_tidy _ _ _ Hm Hc Hw) as [(n & Hn & Hr)|Ht].
  - destruct n as [|[|[|[|[|n]]]]]; [..|lia]; vm_compute in Hr; simplify_eq;
      (split; [by intros [|i]|]);
      intros [|[|[|a]]] ch Ha Hch; simplify_eq/=; try done; lia.
  - destruct Ht as [Hcore _ (st & Hm1 & _) _ Hcrew _]. split.
    + intros i Hi. destruct (decide (i = 1%nat)) as [->|Hne]; [by simplify_eq|].
      by apply (thread_not_Panic _ (Hcrew _ _ Hne Hi)).
    + intros a ch Ha Hch. destruct (Hcore a Ha) as (ch' & Hch' & Hcl & _).
      by simplify_eq.
Qed.

Lemma never_panics_witness :
  let w := scenario 1 client_chan [Tau 0; Tau 0; Sync 2 0 1 0; Tau 2] in
  (∀ i, gs w !! i ≠ Some (GProg Panic)) ∧
  (∀ a ch, (a < 3)%nat → heap w !! a = Some ch → closed ch = false).
Proof.
  apply (never_panics 1 client_chan).
  - apply in_int_small. lia.
  - apply uses_client_chan.
  - apply (run_reachable _ (boot_sched
             ++ [Alone 1 0; Tau 0; Tau 0; Sync 2 0 1 0; Tau 2])).
    reflexivity.
Defined.

Lemma fires_dec c i : (∀ n, fires c i n = false) ∨ (∃ n, fires c i n = true).
Proof.
  destruct c as [j|j m|j1 m1 j2 m2]; simpl.
  - by left.
  - destruct (decide (i = j)) as [->|Hne].
    + right. exists m. by rewrite bool_decide_eq_true_2.
    + left. intros n. apply bool_decide_eq_false_2. by intros [? _].
  - destruct (decide (i = j1)) as [->|Hne1].
    { right. exists m1. by rewrite bool_decide_eq_true_2. }
    destruct (decide (i = j2)) as [->|Hne2].
    { right. exists m2.
      rewrite (bool_decide_eq_true_2 (j2 = j2 ∧ m2 = m2)) by done.
      apply orb_true_r. }
    left. intros n. by rewrite !bool_decide_eq_false_2 by (by intros [? _]).
Qed.

(** X2. The manager's first maximum is the one given to [NewDynaphore],
    also when [SetMax] calls race with its start: the step in which the
    manager leaves its first statement takes it to [current = 0],
    [max = max0]. *)
Theorem manager_starts_with_max0 max0 client w c w' :
  in_int max0 → (∀ s, uses s (client s)) →
  reachable (start max0 client) w →
  exec w c = Some w' →
  gs w !! 1%nat = Some (GManager s0 MStart) →
  gs w' !! 1%nat = Some (GManager s0 MStart)
  ∨ gs w' !! 1%nat = Some (GManager s0 (MLoop 0 max0)).
Proof.
  intros Hm Hc Hw He H1.
  destruct (reachable_tidy _ _ _ Hm Hc Hw) as [(n & Hn & Hr)|Ht].
  { destruct n as [|[|[|[|[|n]]]]]; [..|lia]; vm_compute in Hr;
      by simplify_eq. }
  destruct (fires_dec c 1) as [Hidle|[n Hf]].
  { left. by eapply manager_idle. }
  right.
  destruct (manager_fires _ _ _ _ _ _ _ He H1 Hf) as (sc & Hsc & Hout).
  destruct n; simplify_eq/=. destruct Hout as (_ & v & Hv & ->).
  do 3 f_equal.
  destruct Ht as [_ _ (st & Hm1 & _ & Hfirst) _ _ _]. simplify_eq.
  destruct (Hfirst eq_refl) as (ch & b & Hch & Hb).
  destruct c as [j|j m|j1 m1 j2 m2]; simpl in Hf; [done|..].
  - apply bool_decide_eq_true in Hf as [<- <-].
    simpl in Hv. rewrite H1 in Hv. simpl in Hv. rewrite Hch in Hv.
    simpl in Hv. rewrite Hb in Hv. by simplify_eq.
  - apply exec_inv in He as (_ & gi & oi & gj & oj & gi' & gj'
                               & Hi & Hoi & Hj & Hoj & Hy & _).
    apply sync_inv in Hy as (a & v' & kr & ch' & -> & -> & _ & Hch' & _ & Hb').
    apply orb_true_iff in Hf as [Hf|Hf];
      apply bool_decide_eq_true in Hf as [<- <-]; simplify_eq/=.
    congruence.
Qed.

Lemma manager_starts_with_max0_witness :
  gs (scenario 3 client_down []) !! 1%nat = Some (GManager s0 MStart)
  ∨ gs (scenario 3 client_down []) !! 1%nat
    = Some (GManager s0 (MLoop 0 3)).
Proof.
  apply (manager_starts_with_max0 3 client_down (booted 3 client_down)
           (Alone 1 0)).
  - apply in_int_small. lia.
  - intros s. apply uses_Down, uses_Done.
  - apply (run_reachable _ boot_sched). reflexivity.
  - reflexivity.
  - reflexivity.
Defined.

Lemma untouched w c w' i g :
  exec w c = Some w' → gs w !! i = Some g → touches c i = false →
  gs w' !! i = Some g.
Proof.
  intros He Hi Ht. apply exec_inv in He.
  destruct c as [j|j n|j n k m]; simpl in Ht.
  - destruct He as (g0 & h' & g' & new & _ & _ & ->). simpl.
    apply bool_decide_eq_false in Ht.
    apply lookup_app_l_Some. by rewrite list_lookup_insert_ne.
  - destruct He as (g0 & o & h' & g' & _ & _ & _ & ->). simpl.
    apply bool_decide_eq_false in Ht. by rewrite list_lookup_insert_ne.
  - destruct He as (_ & gi & oi & gj & oj & gi' & gj' & _ & _ & _ & _ & _ & ->).
    simpl. apply orb_false_iff in Ht as [H1 H2].
    apply bool_decide_eq_false in H1, H2.
    by rewrite !list_lookup_insert_ne.
Qed.

Lemma booting_single max0 client w :
  booting max0 client w →
  ∃ p, gs w = [GProg p] ∧ ∀ k, p ≠ Up s0 k ∧ p ≠ Down s0 k.
Proof.
  intros (n & Hn & Hr).
  destruct n as [|[|[|[|[|n]]]]]; [..|lia]; vm_compute in Hr; simplify_eq;
    by eexists.
Qed.

(** X3. A goroutine gets past the send on [lock] that [Up()] and
    [UpChan()]'s helper make only in a step in which the manager services
    its acquire clause, from [current < max], and counts the permit. *)
Theorem Up_returns_when_granted max0 client w c w' i k :
  in_int max0 → (∀ s, uses s (client s)) →
  reachable (start max0 client) w →
  exec w c = Some w' →
  gs w !! i = Some (GProg (Up s0 k)) →
  gs w' !! i = Some (GProg (Up s0 k))
  ∨ (c = Sync i 0 1 case_lock ∧ gs w' !! i = Some (GProg k) ∧
     ∃ cur mx, gs w !! 1%nat = Some (GManager s0 (MLoop cur mx)) ∧ cur < mx ∧
               gs w' !! 1%nat = Some (GManager s0 (MLoop (cur + 1) mx))).
Proof.
  intros Hm Hc Hw He Hi.
  destruct (reachable_tidy _ _ _ Hm Hc Hw) as [Hb|Ht].
  { apply booting_single in Hb as (p & Hgs & Hp). rewrite Hgs in Hi.
    destruct i; simplify_eq/=. by destruct (Hp k). }
  destruct (touches c i) eqn:Htch; [|left; by eapply untouched].
  pose proof Ht as [Hcore _ (st & Hm1 & Hst & _) _ _ _].
  destruct c as [j|j n|j n j2 m]; simpl in Htch.
  - apply bool_decide_eq_true in Htch as <-.
    apply exec_inv in He as (g0 & h' & g' & new & Hi' & Htau & _).
    by simplify_eq.
  - apply bool_decide_eq_true in Htch as <-.
    apply exec_inv in He as (g0 & o & h' & g' & Hi' & Ho & Hal & _).
    simplify_eq. destruct n; simplify_eq/=.
    apply alone_send in Hal as (_ & ch & Hch & Hroom & _); [|done|lia].
    destruct (Hcore 0%nat) as (ch' & Hch' & _ & Hq & _); [lia|].
    simplify_eq. simpl in Hq. lia.
  - right.
    destruct (tidy_sync_inv _ _ _ _ _ _ _ Ht He)
      as (p & a & v & k' & st' & kr & Hj1 & -> & Hj & Hp & Hoi & Ha & Hv & Hk
            & Hck & Hm1' & Hoj & Hkr & _ & ->).
    apply orb_true_iff in Htch as [Htch|Htch];
      apply bool_decide_eq_true in Htch as ->; simplify_eq.
    destruct n; simplify_eq/=.
    rewrite list_lookup_fmap in Hoj.
    assert (m = case_lock ∧ ∃ cur mx, st = MLoop cur mx ∧ cur < mx ∧
              ∀ v, kr v = MLoop (wrap (cur + 1)) mx)
      as (-> & cur & mx & -> & Hlt & Hkr').
    { destruct st as [|cur mx]; simpl in Hoj.
      - by destruct m; simplify_eq/=.
      - destruct m as [|[|[|[|m]]]]; simplify_eq/=.
        case_bool_decide; simplify_eq/=.
        split; [done|]. exists cur, mx. split_and!; [done|lia|].
        intros v. apply (f_equal (λ f, f v)) in H. by simplify_eq/=. }
    split; [done|]. split.
    { rewrite list_lookup_insert_ne by done.
      apply list_lookup_insert_eq. by eapply lookup_lt_Some. }
    exists cur, mx. split_and!; [done..|].
    rewrite list_lookup_insert_eq
      by (rewrite length_insert; by eapply lookup_lt_Some).
    destruct Hst as [Hcur Hmx]. unfold in_int in Hmx. pose proof min_int_neg.
    rewrite Hkr', wrap_id; [done|]. unfold in_int. lia.
Qed.

Lemma Up_returns_when_granted_witness :
  gs (scenario 1 client_up_up [Sync 0 0 1 0]) !! 0%nat
    = Some (GProg (Up s0 (Up s0 Done)))
  ∨ (Sync 0 0 1 0 = Sync 0 0 1 case_lock ∧
     gs (scenario 1 client_up_up [Sync 0 0 1 0]) !! 0%nat
       = Some (GProg (Up s0 Done)) ∧
     ∃ cur mx,
       gs (scenario 1 client_up_up []) !! 1%nat
         = Some (GManager s0 (MLoop cur mx)) ∧ cur < mx ∧
       gs (scenario 1 client_up_up [Sync 0 0 1 0]) !! 1%nat
         = Some (GManager s0 (MLoop (cur + 1) mx))).
Proof.
  apply (Up_returns_when_granted 1 client_up_up (scenario 1 client_up_up [])).
  - apply in_int_small. lia.
  - intros s. apply uses_Up, uses_Up, uses_Done.
  - apply (run_reachable _ (boot_sched ++ [Alone 1 0])). reflexivity.
  - reflexivity.
  - reflexivity.
Defined.

(** *** [Down()] and [SetMax()] do not wait for capacity *)

Lemma send_now w i a v k ch :
  gs w !! i = Some (GProg (Send (Some a) v k)) →
  heap w !! a = Some ch → closed ch = false →
  (length (buf ch) < qcap ch)%nat →
  exec w (Alone i 0)
    = Some (World (<[a := set_buf ch (buf ch ++ [v])]> (heap w))
                  (<[i := GProg k]> (gs w))).
Proof.
  intros Hi Ha Hc Hr. simpl. rewrite Hi. simpl. rewrite Ha, Hc. simpl.
  by rewrite bool_decide_eq_true_2.
Qed.

Lemma manager_takes w st n a ch v b k :
  gs w !! 1%nat = Some (GManager s0 st) →
  manager s0 st !! n = Some (CaseRecv (Some a) k) →
  heap w !! a = Some ch → buf ch = v :: b →
  exec w (Alone 1 n)
    = Some (World (<[a := set_buf ch b]> (heap w))
                  (<[1%nat := GManager s0 (k v)]> (gs w))).
Proof.
  intros Hm Hn Ha Hb. simpl. rewrite Hm. simpl.
  rewrite list_lookup_fmap, Hn. simpl. by rewrite Ha, Hb.
Qed.

Lemma run_cons w c cs : run w (c :: cs) = exec w c ≫= λ w', run w' cs.
Proof. done. Qed.

Lemma buffered_send_at_loop max0 w i a v k cur mx :
  tidy max0 w → a = 1%nat ∨ a = 2%nat →
  gs w !! 1%nat = Some (GManager s0 (MLoop cur mx)) →
  gs w !! i = Some (GProg (Send (Some a) v k)) →
  ∃ cs w', (length cs ≤ 2)%nat ∧ run w cs = Some w' ∧
           gs w' !! i = Some (GProg k).
Proof.
  intros Ht Ha Hm Hi. pose proof (lookup_lt_Some _ _ _ Hi) as Hlt.
  assert (i ≠ 1%nat) as Hi1 by (intros ->; by simplify_eq).
  destruct Ht as [Hcore _ _ _ _ _].
  destruct (Hcore a) as (ch & Hch & Hcl & Hq & Hlen); [lia|].
  assert (qcap ch = 1%nat) as Hq1 by (destruct Ha as [-> | ->]; done).
  destruct (buf ch) as [|v0 b] eqn:Hb.
  - exists [Alone i 0]. eexists. split; [simpl; lia|].
    rewrite run_cons.
    rewrite (send_now _ _ _ _ _ _ Hi Hch Hcl) by (rewrite Hb; simpl; lia).
    simpl. split; [reflexivity|]. simpl. by rewrite list_lookup_insert_eq.
  - assert (b = []) as -> by (destruct b; [done|simpl in Hlen; lia]).
    assert (∃ n kr, manager s0 (MLoop cur mx) !! n
                      = Some (CaseRecv (Some a) kr)) as (n & kr & Hn).
    { destruct Ha as [-> | ->];
        [exists case_unlock|exists case_max]; by eexists. }
    exists [Alone 1 n; Alone i 0]. eexists. split; [simpl; lia|].
    rewrite run_cons, (manager_takes _ _ _ _ _ _ _ _ Hm Hn Hch Hb). simpl.
    rewrite list_lookup_insert_ne by done. rewrite Hi. simpl.
    rewrite list_lookup_insert_eq by (by eapply lookup_lt_Some). simpl.
    rewrite Hcl, Hq1. simpl. split; [reflexivity|]. simpl.
    apply list_lookup_insert_eq. by rewrite length_insert.
Qed.

(** X4. [Down()] and [SetMax()] never wait for capacity: wherever the
    manager is, and whatever [current] and [max] are, at most two steps of
    the manager and one of the caller make the call return. *)
Theorem Down_SetMax_return max0 client w i p k :
  in_int max0 → (∀ s, uses s (client s)) →
  reachable (start max0 client) w →
  gs w !! i = Some (GProg p) →
  p = Down s0 k ∨ (∃ newMax, p = SetMax s0 newMax k) →
  ∃ cs w', (length cs ≤ 3)%nat ∧ run w cs = Some w' ∧
           gs w' !! i = Some (GProg k).
Proof.
  intros Hm Hc Hw Hi Hp.
  assert (∃ a v, (a = 1%nat ∨ a = 2%nat) ∧ p = Send (Some a) v k)
    as (a & v & Ha & ->).
  { destruct Hp as [->|[n ->]]; [exists 1%nat, VUnit|exists 2%nat, (VInt n)];
      split; auto. }
  destruct (reachable_tidy _ _ _ Hm Hc Hw) as [(n & Hn & Hr)|Ht].
  { destruct n as [|[|[|[|[|n]]]]]; [..|lia]; vm_compute in Hr; simplify_eq;
      destruct i; simplify_eq/=.
    (* the send in [NewDynaphore] itself *)
    exists [Alone 0 0]. eexists. split; [simpl; lia|]. by split. }
  pose proof Ht as [_ _ (st & Hm1 & _ & Hfirst) _ _ _].
  assert (i ≠ 1%nat) as Hi1 by (intros ->; by simplify_eq).
  destruct st as [|cur mx].
  - destruct (Hfirst eq_refl) as (ch & b & Hch & Hb).
    assert (exec w (Alone 1 0)
              = Some (World (<[2%nat := set_buf ch b]> (heap w))
                        (<[1%nat := GManager s0 (MLoop 0 max0)]> (gs w))))
      as He by exact (manager_takes w MStart 0 2 ch _ _ _ Hm1 eq_refl Hch Hb).
    pose proof (tidy_step _ _ _ _ Ht He) as Ht1.
    edestruct (buffered_send_at_loop max0 _ i a v k 0 max0 Ht1 Ha)
      as (cs & w' & Hlen & Hrun & Hk).
    + simpl. apply list_lookup_insert_eq. by eapply lookup_lt_Some.
    + simpl. by rewrite list_lookup_insert_ne.
    + exists (Alone 1 0 :: cs), w'. split; [simpl; lia|].
      split; [|done]. by rewrite run_cons, He.
  - destruct (buffered_send_at_loop max0 _ i a v k _ _ Ht Ha Hm1 Hi)
      as (cs & w' & Hlen & Hrun & Hk).
    exists cs, w'. split; [lia|done].
Qed.

Lemma Down_SetMax_return_witness :
  ∃ cs w', (length cs ≤ 3)%nat ∧
           run (scenario 1 client_setmax []) cs = Some w' ∧
           gs w' !! 0%nat = Some (GProg Done).
Proof.
  apply (Down_SetMax_return 1 client_setmax (scenario 1 client_setmax [])
           0%nat (SetMax s0 5 Done) Done).
  - apply in_int_small. lia.
  - intros s. apply uses_SetMax; [apply in_int_small; lia|apply uses_Done].
  - apply (run_reachable _ (boot_sched ++ [Alone 1 0])). reflexivity.
  - reflexivity.
  - right. by exists 5.
Defined.

(** *** Accounting *)

Lemma world_step max0 client w c w' :
  in_int max0 → (∀ s, uses s (client s)) →
  booting max0 client w ∨ tidy max0 w → exec w c = Some w' →
  booting max0 client w' ∨ tidy max0 w'.
Proof.
  intros Hm Hc [Hb|Ht] He.
  - destruct (booting_step _ _ _ _ _ Hb He) as [?| ->]; [by left|].
    right. by apply booted_tidy.
  - right. by eapply tidy_step.
Qed.

Lemma tidy_is_loop max0 w i : tidy max0 w → is_loop w i = true → i = 1%nat.
Proof.
  intros [_ _ _ _ Hcrew _] Hl. unfold is_loop in Hl.
  destruct (decide (i = 1%nat)) as [|Hne]; [done|].
  destruct (gs w !! i) as [g|] eqn:Hi; [|done].
  pose proof (Hcrew _ _ Hne Hi). by destruct g.
Qed.

Lemma at_zero_is_loop w i : at_zero w i = true → is_loop w i = true.
Proof.
  unfold at_zero, is_loop. destruct (gs w !! i) as [[|s [|cur mx]]|]; done.
Qed.

Lemma serviced_spec max0 w c w' n :
  tidy max0 w → exec w c = Some w' →
  serviced w c n = is_loop w 1 && fires c 1 n.
Proof.
  intros Ht He. destruct c as [j|j m|j1 m1 j2 m2]; simpl.
  - by rewrite andb_false_r.
  - destruct (decide (j = 1%nat)) as [->|Hne].
    + f_equal. apply bool_decide_ext. intuition congruence.
    + rewrite (bool_decide_eq_false_2 (1%nat = j ∧ _)) by intuition congruence.
      rewrite andb_false_r. apply andb_false_intro1.
      destruct (is_loop w j) eqn:Hl; [|done].
      by apply (tidy_is_loop _ _ _ Ht) in Hl.
  - destruct (tidy_sync_inv _ _ _ _ _ _ _ Ht He)
      as (p & a & v & k & st & kr & Hj1 & -> & Hj & _).
    rewrite (bool_decide_eq_false_2 (1%nat = j1 ∧ _)) by intuition congruence.
    assert (is_loop w j1 = false) as ->.
    { unfold is_loop. by rewrite Hj. }
    simpl. f_equal. apply bool_decide_ext. intuition congruence.
Qed.

Lemma absorbed_spec max0 w c w' :
  tidy max0 w → exec w c = Some w' →
  absorbed w c = at_zero w 1 && fires c 1 case_unlock.
Proof.
  intros Ht He. destruct c as [j|j m|j1 m1 j2 m2]; simpl.
  - by rewrite andb_false_r.
  - destruct (decide (j = 1%nat)) as [->|Hne].
    + f_equal. apply bool_decide_ext. intuition congruence.
    + rewrite (bool_decide_eq_false_2 (1%nat = j ∧ _)) by intuition congruence.
      rewrite andb_false_r. apply andb_false_intro1.
      destruct (at_zero w j) eqn:Hl; [|done].
      by apply at_zero_is_loop, (tidy_is_loop _ _ _ Ht) in Hl.
  - destruct (tidy_sync_inv _ _ _ _ _ _ _ Ht He)
      as (p & a & v & k & st & kr & Hj1 & -> & Hj & _).
    rewrite (bool_decide_eq_false_2 (1%nat = j1 ∧ _)) by intuition congruence.
    assert (at_zero w j1 = false) as ->.
    { unfold at_zero. by rewrite Hj. }
    simpl. f_equal. apply bool_decide_ext. intuition congruence.
Qed.

Lemma fires_eq w c w' i n0 :
  exec w c = Some w' → fires c i n0 = true →
  ∀ n, fires c i n = bool_decide (n = n0).
Proof.
  intros He Hf n. apply exec_inv in He.
  destruct c as [j|j m|j1 m1 j2 m2]; simpl in *; [done|..].
  - apply bool_decide_eq_true in Hf as [-> ->].
    apply bool_decide_ext. intuition congruence.
  - destruct He as [Hne _].
    apply orb_true_iff in Hf as [Hf|Hf];
      apply bool_decide_eq_true in Hf as [-> ->].
    + rewrite (bool_decide_eq_false_2 (j1 = j2 ∧ _)) by intuition congruence.
      rewrite orb_false_r. apply bool_decide_ext. intuition congruence.
    + rewrite (bool_decide_eq_false_2 (j2 = j1 ∧ _)) by intuition congruence.
      simpl. apply bool_decide_ext. intuition congruence.
Qed.

Lemma locks_out_step max0 w c w' :
  tidy max0 w → exec w c = Some w' →
  locks_out w' = locks_out w + Z.b2z (serviced w c case_lock)
                 - Z.b2z (serviced w c case_unlock) + Z.b2z (absorbed w c).
Proof.
  intros Ht He.
  rewrite !(serviced_spec _ _ _ _ _ Ht He), (absorbed_spec _ _ _ _ Ht He).
  pose proof Ht as [_ _ (st & Hm1 & Hst & _) _ _ _].
  unfold locks_out, is_loop, at_zero. rewrite Hm1.
  destruct (fires_dec c 1) as [Hidle|[n0 Hf]].
  { rewrite (manager_idle _ _ _ _ _ _ He Hm1 Hidle), !Hidle, !andb_false_r.
    simpl. lia. }
  rewrite !(fires_eq _ _ _ _ _ He Hf).
  destruct (manager_fires _ _ _ _ _ _ _ He Hm1 Hf) as (sc & Hsc & Hout).
  destruct st as [|cur mx].
  - destruct n0; simplify_eq/=. by destruct Hout as (_ & v & _ & ->).
  - destruct Hst as [Hcur Hmx]. unfold in_int in Hmx. pose proof min_int_neg.
    destruct n0 as [|[|[|[|n0]]]]; simplify_eq/=.
    + destruct Hout as (Hl & v & _ & ->). case_bool_decide; [done|].
      rewrite andb_false_r, wrap_id by (unfold in_int; lia). simpl. lia.
    + destruct Hout as (_ & v & _ & ->). case_bool_decide.
      * rewrite wrap_id by (unfold in_int; lia). destruct cur; simpl; lia.
      * assert (cur = 0) as -> by lia. done.
    + destruct Hout as (_ & v & _ & ->). rewrite andb_false_r. simpl. lia.
Qed.

Lemma booting_quiet max0 client w c :
  booting max0 client w →
  locks_out w = 0 ∧ (∀ n, serviced w c n = false) ∧ absorbed w c = false.
Proof.
  intros Hb. apply booting_single in Hb as (p & Hgs & _).
  assert (∀ j, is_loop w j = false ∧ at_zero w j = false) as Hq.
  { intros j. unfold is_loop, at_zero. rewrite Hgs. by destruct j as [|[|j]]. }
  split; [unfold locks_out; by rewrite Hgs|].
  split; [intros n|]; destruct c as [j|j m|j1 m1 j2 m2]; simpl; try done.
  - by rewrite (proj1 (Hq j)).
  - by rewrite (proj1 (Hq j1)), (proj1 (Hq j2)).
  - by rewrite (proj2 (Hq j)).
  - by rewrite (proj2 (Hq j1)), (proj2 (Hq j2)).
Qed.

Lemma locks_out_run max0 client cs : ∀ w w',
  in_int max0 → (∀ s, uses s (client s)) →
  booting max0 client w ∨ tidy max0 w → run w cs = Some w' →
  locks_out w' = locks_out w + Z.of_nat (count case_lock w cs)
                 - Z.of_nat (count case_unlock w cs)
                 + Z.of_nat (count_absorbed w cs).
Proof.
  induction cs as [|c cs IH]; intros w w' Hm Hc Hw Hr; simpl in Hr.
  - simplify_eq. simpl. lia.
  - destruct (exec w c) as [w1|] eqn:He; [|done]. simpl in Hr.
    rewrite (IH _ _ Hm Hc (world_step _ _ _ _ _ Hm Hc Hw He) Hr).
    simpl. rewrite He.
    assert (locks_out w1 = locks_out w + Z.b2z (serviced w c case_lock)
              - Z.b2z (serviced w c case_unlock) + Z.b2z (absorbed w c))
      as ->.
    { destruct Hw as [Hb|Ht]; [|by eapply locks_out_step].
      destruct (booting_quiet _ _ _ c Hb) as (H0 & Hs & Ha).
      rewrite H0, !Hs, Ha. simpl.
      destruct (booting_step _ _ _ _ _ Hb He) as [Hb'| ->].
      - by destruct (booting_quiet _ _ _ c Hb') as (-> & _).
      - done. }
    destruct (serviced w c case_lock), (serviced w c case_unlock),
      (absorbed w c); simpl; lia.
Qed.

(** X5. The manager's [current] is the number of acquires it has serviced,
    minus the releases it has serviced, plus the releases it serviced while
    no lock was out.  So it never exceeds the number of permits granted. *)
Theorem current_accounts max0 client cs w cur mx :
  in_int max0 → (∀ s, uses s (client s)) →
  run (start max0 client) cs = Some w →
  gs w !! 1%nat = Some (GManager s0 (MLoop cur mx)) →
  let w0 := start max0 client in
  cur = Z.of_nat (count case_lock w0 cs) - Z.of_nat (count case_unlock w0 cs)
        + Z.of_nat (count_absorbed w0 cs) ∧
  cur ≤ Z.of_nat (count case_lock w0 cs).
Proof.
  intros Hm Hc Hr H1 w0.
  assert (booting max0 client w0 ∨ tidy max0 w0) as Hw0.
  { left. by exists 0%nat; split; [lia|]. }
  pose proof (locks_out_run _ _ _ _ _ Hm Hc Hw0 Hr) as Hl.
  unfold locks_out in Hl at 1. rewrite H1 in Hl. simpl in Hl.
  assert (count_absorbed w0 cs ≤ count case_unlock w0 cs)%nat as Hle.
  { clear. generalize w0. induction cs as [|c cs IH]; intros w; simpl; [done|].
    destruct (exec w c) as [w1|]; [|done]. specialize (IH w1).
    assert (absorbed w c = true → serviced w c case_unlock = true) as Ha.
    { destruct c as [j|j m|j1 m1 j2 m2]; simpl; [done|..].
      - intros [Hz Hb]%andb_true_iff. apply bool_decide_eq_true in Hb as ->.
        by rewrite (at_zero_is_loop _ _ Hz).
      - intros [[Hz Hb]%andb_true_iff|[Hz Hb]%andb_true_iff]%orb_true_iff;
          apply bool_decide_eq_true in Hb as ->;
          rewrite (at_zero_is_loop _ _ Hz); simpl; [done|].
        apply orb_true_r. }
    destruct (absorbed w c); [rewrite Ha by done|destruct (serviced _ _ _)];
      lia. }
  change (locks_out w0) with 0 in Hl. split; lia.
Qed.

Lemma current_accounts_witness :
  let cs := boot_sched ++ [Alone 1 0; Sync 0 0 1 0] in
  let w0 := start 1 client_up_up in
  1 = Z.of_nat (count case_lock w0 cs) - Z.of_nat (count case_unlock w0 cs)
      + Z.of_nat (count_absorbed w0 cs) ∧
  1 ≤ Z.of_nat (count case_lock w0 cs).
Proof.
  apply (current_accounts 1 client_up_up
           (boot_sched ++ [Alone 1 0; Sync 0 0 1 0])
           (scenario 1 client_up_up [Sync 0 0 1 0]) 1 1).
  - apply in_int_small. lia.
  - intros s. apply uses_Up, uses_Up, uses_Done.
  - reflexivity.
  - reflexivity.
Defined.

(** *** A lock channel is ready only after its permit was granted *)

Lemma tally_app {A} (f : A → bool) l1 l2 :
  tally f (l1 ++ l2) = (tally f l1 + tally f l2)%nat.
Proof. induction l1 as [|x l1 IH]; simpl; [done|]. rewrite IH. lia. Qed.

Lemma tally_insert {A} (f : A → bool) (l : list A) i x y :
  l !! i = Some x →
  (tally f (<[i := y]> l) + (if f x then 1 else 0)
   = tally f l + (if f y then 1 else 0))%nat.
Proof.
  revert i. induction l as [|z l IH]; intros [|i] Hi; simplify_eq/=.
  - lia.
  - specialize (IH _ Hi). lia.
Qed.

Lemma uses_not_closing p : uses s0 p → is_closing (GProg p) = false.
Proof. by destruct 1. Qed.

Lemma thread_tau_closing h p h' g' new :
  thread p →
  (∀ a, closer p = Some a → ∃ ch, h !! a = Some ch ∧ closed ch = false) →
  tau h (GProg p) = Some (h', g', new) →
  is_closing g' = false ∧ tally is_closing new = 0%nat ∧
  tally closed h' = (tally closed h
                     + (if is_closing (GProg p) then 1 else 0))%nat.
Proof.
  intros Hp Hopen Ht. destruct Hp as [p Hu|a k Hk|a|a]; simpl in Ht.
  - apply uses_inv in Hu. destruct p; simplify_eq/=; try done.
    + destruct Hu as (-> & -> & k' & -> & Hk'). split_and!; [done..|].
      rewrite tally_app. simpl. lia.
    + destruct Hu as [Hb Hk].
      pose proof (uses_not_closing _ Hb) as Hb'.
      pose proof (uses_not_closing _ Hk) as Hk'. simpl in Hb', Hk'.
      rewrite Hb', Hk'. split_and!; [done..|lia].
  - simplify_eq. pose proof (uses_not_closing _ Hk) as Hk'.
    split_and!; [done..|simpl; lia].
  - done.
  - destruct (Hopen a eq_refl) as (ch & Hch & Hc). rewrite Hch, Hc in Ht.
    simplify_eq. split_and!; [done..|].
    pose proof (tally_insert closed h a ch (set_closed ch) Hch) as Hi.
    rewrite Hc in Hi. simpl in *. lia.
Qed.

Lemma thread_send_closing p n a v k :
  thread p → offers (GProg p) !! n = Some (OSend (Some a) v (GProg k)) →
  is_closing (GProg p) = false ∧
  (is_closing (GProg k) = true → a = 0%nat).
Proof.
  intros Hp Ho. destruct Hp as [p Hu|a' k' Hk|a'|a']; simpl in Ho.
  - apply uses_inv in Hu. destruct p; try done; destruct n; simplify_eq/=.
    destruct Hu as [Hk _]. pose proof (uses_not_closing _ Hk) as Hk'.
    simpl in Hk'. by rewrite Hk'.
  - done.
  - by destruct n; simplify_eq/=.
  - done.
Qed.

Lemma manager_lock_clause st m kr :
  offers (GManager s0 st) !! m = Some (ORecv (Some 0%nat) kr) →
  m = case_lock ∧ ∃ cur mx, st = MLoop cur mx ∧ cur < mx.
Proof.
  intros Ho. simpl in Ho. rewrite list_lookup_fmap in Ho.
  destruct st as [|cur mx]; simpl in Ho.
  - by destruct m; simplify_eq/=.
  - destruct m as [|[|[|[|m]]]]; simplify_eq/=.
    case_bool_decide; simplify_eq/=. split; [done|].
    exists cur, mx. split; [done|lia].
Qed.

Lemma tally_closed_set_buf h a ch b :
  h !! a = Some ch → tally closed (<[a := set_buf ch b]> h) = tally closed h.
Proof.
  intros Ha. pose proof (tally_insert closed h a ch (set_buf ch b) Ha) as Hi.
  simpl in Hi. lia.
Qed.

Lemma ready_step max0 w c w' :
  tidy max0 w → exec w c = Some w' →
  (tally closed (heap w') + tally is_closing (gs w')
   ≤ tally closed (heap w) + tally is_closing (gs w)
     + (if serviced w c case_lock then 1 else 0))%nat.
Proof.
  intros Ht He. pose proof Ht as [Hcore _ (st & Hm1 & _) Hhan Hcrew Hown].
  destruct c as [i|i n|i n j m].
  - pose proof He as He'.
    apply exec_inv in He' as (g & h' & g' & new & Hi & Htau & ->).
    assert (i ≠ 1%nat) as Hi1. { intros ->. by simplify_eq. }
    pose proof (Hcrew _ _ Hi1 Hi) as Hmem. destruct g as [p|]; [|done].
    assert (∀ a, closer p = Some a →
                 ∃ ch, heap w !! a = Some ch ∧ closed ch = false) as Hopen.
    { intros a Ha. eapply (proj1 Hown i).
      by rewrite list_lookup_fmap, Hi; simpl; rewrite Ha. }
    destruct (thread_tau_closing _ _ _ _ _ Hmem Hopen Htau)
      as (Hg' & Hnew & Hh').
    pose proof (tally_insert is_closing _ _ _ g' Hi) as Hins.
    simpl. rewrite tally_app, Hnew, Hh'. rewrite Hg' in Hins. lia.
  - pose proof He as He'.
    apply exec_inv in He' as (g & o & h' & g' & Hi & Ho & Hal & ->).
    simpl. pose proof (tally_insert is_closing _ _ _ g' Hi) as Hins.
    assert (is_closing g = false ∧ is_closing g' = false ∧
            tally closed h' = tally closed (heap w)) as (Hg & Hg' & Hh').
    { destruct (decide (i = 1%nat)) as [->|Hi1].
      - rewrite Hm1 in Hi. simplify_eq.
        destruct (manager_offer _ _ _ Ho) as [(v & k & ->)|(c & k & -> & _)];
          [done|].
        apply alone_recv in Hal as (a & ch & v & -> & Hch & -> & Hbuf).
        split_and!; [done..|].
        destruct Hbuf as [(b & _ & ->)|(_ & _ & _ & ->)]; [|done].
        by apply tally_closed_set_buf.
      - pose proof (Hcrew _ _ Hi1 Hi) as Hmem. destruct g as [p|]; [|done].
        destruct (thread_offers _ _ _ Hmem Ho)
          as [(a & v & k & -> & Ha & _)|(c & k & -> & Hc & _ & Hk)].
        + destruct (thread_send_closing _ _ _ _ _ Hmem Ho) as [Hp Hk].
          apply alone_send in Hal as (-> & ch & Hch & Hroom & ->); [|done..].
          split_and!; [done| |by apply tally_closed_set_buf].
          destruct (is_closing (GProg k)); [|done]. rewrite Hk in Hch by done.
          destruct (Hcore 0%nat) as (ch' & Hch' & _ & Hq & _); [lia|].
          simplify_eq. simpl in Hq. lia.
        + apply alone_recv in Hal as (a & ch & v & -> & Hch & -> & Hbuf).
          split_and!; [by destruct Hmem as [p Hu| | |]; [apply uses_not_closing|..]
                      |by apply uses_not_closing|].
          destruct Hbuf as [(b & _ & ->)|(_ & _ & _ & ->)]; [|done].
          by apply tally_closed_set_buf. }
    rewrite Hg, Hg' in Hins. lia.
  - destruct (tidy_sync_inv _ _ _ _ _ _ _ Ht He)
      as (p & a & v & k & st' & kr & Hi1 & -> & Hi & Hp & Hoi & Ha & Hv & Hk
            & Hck & Hm1' & Hoj & Hkr & _ & ->).
    simpl. destruct (thread_send_closing _ _ _ _ _ Hp Hoi) as [Hpc Hkc].
    pose proof (tally_insert is_closing _ _ _ (GProg k) Hi) as Hins1.
    assert (<[i := GProg k]> (gs w) !! 1%nat = Some (GManager s0 st')) as Hm2.
    { by rewrite list_lookup_insert_ne. }
    pose proof (tally_insert is_closing _ _ _ (GManager s0 (kr v)) Hm2) as Hins2.
    rewrite Hpc in Hins1. simpl in Hins2.
    destruct (is_closing (GProg k)) eqn:Hkc'; [|lia].
    rewrite Hkc in Hoj by done.
    apply manager_lock_clause in Hoj as (-> & cur & mx & -> & _).
    assert (is_loop w 1 = true) as -> by (unfold is_loop; by rewrite Hm1').
    rewrite (bool_decide_eq_true_2 (case_lock = case_lock)) by done.
    rewrite orb_true_r. lia.
Qed.

Lemma booting_unready max0 client w :
  booting max0 client w →
  (tally closed (heap w) + tally is_closing (gs w) = 0)%nat.
Proof.
  intros (n & Hn & Hr).
  destruct n as [|[|[|[|[|n]]]]]; [..|lia]; vm_compute in Hr; by simplify_eq.
Qed.

Lemma ready_run max0 client cs : ∀ w w',
  in_int max0 → (∀ s, uses s (client s)) →
  booting max0 client w ∨ tidy max0 w → run w cs = Some w' →
  (tally closed (heap w') + tally is_closing (gs w')
   ≤ tally closed (heap w) + tally is_closing (gs w) + count case_lock w cs)%nat.
Proof.
  induction cs as [|c cs IH]; intros w w' Hm Hc Hw Hr; simpl in Hr.
  - simplify_eq. simpl. lia.
  - destruct (exec w c) as [w1|] eqn:He; [|done]. simpl in Hr.
    pose proof (IH _ _ Hm Hc (world_step _ _ _ _ _ Hm Hc Hw He) Hr) as IH'.
    simpl. rewrite He.
    assert (tally closed (heap w1) + tally is_closing (gs w1)
            ≤ tally closed (heap w) + tally is_closing (gs w)
              + (if serviced w c case_lock then 1 else 0))%nat; [|lia].
    destruct Hw as [Hb|Ht]; [|by eapply ready_step].
    rewrite (booting_unready _ _ _ Hb).
    destruct (booting_step _ _ _ _ _ Hb He) as [Hb'| ->].
    + rewrite (booting_unready _ _ _ Hb'). lia.
    + simpl. pose proof (uses_not_closing _ (Hc s0)) as Hn. simpl in Hn.
      rewrite Hn. lia.
Qed.

(** X6. The lock channels closed so far, together with the goroutines about
    to close one, never outnumber the acquires the manager has serviced:
    [UpChan()]'s channel becomes ready only after its permit was granted. *)
Theorem ready_only_after_grant max0 client cs w :
  in_int max0 → (∀ s, uses s (client s)) →
  run (start max0 client) cs = Some w →
  (tally closed (heap w) + tally is_closing (gs w)
   ≤ count case_lock (start max0 client) cs)%nat.
Proof.
  intros Hm Hc Hr.
  assert (booting max0 client (start max0 client)
          ∨ tidy max0 (start max0 client)) as Hw0.
  { left. by exists 0%nat; split; [lia|]. }
  pose proof (ready_run _ _ _ _ _ Hm Hc Hw0 Hr) as Hl.
  simpl in Hl. lia.
Qed.

Lemma ready_only_after_grant_witness :
  let cs := boot_sched ++ [Alone 1 0; Tau 0; Tau 0; Sync 2 0 1 0; Tau 2] in
  let w := scenario 1 client_chan [Tau 0; Tau 0; Sync 2 0 1 0; Tau 2] in
  (tally closed (heap w) + tally is_closing (gs w)
   ≤ count case_lock (start 1 client_chan) cs)%nat.
Proof.
  apply (ready_only_after_grant 1 client_chan).
  - apply in_int_small. lia.
  - apply uses_client_chan.
  - reflexivity.
Defined.

(** X7. A receive on a lock channel -- waiting for a permit handed out by
    [UpChan()], which is also the first thing [DownChan()]'s goroutine does --
    completes only once that channel has been closed, and completes alone:
    nothing is ever sent on a lock channel. *)
Theorem wait_returns_when_closed max0 client w c w' i l k :
  in_int max0 → (∀ s, uses s (client s)) →
  reachable (start max0 client) w →
  exec w c = Some w' →
  gs w !! i = Some (GProg (Recv l k)) →
  gs w' !! i = Some (GProg (Recv l k))
  ∨ (c = Alone i 0 ∧ heap w' = heap w ∧
     ∃ a ch, l = Some a ∧ (3 ≤ a)%nat ∧ heap w !! a = Some ch ∧
             closed ch = true ∧ gs w' !! i = Some (GProg (k (zero ch)))).
Proof.
  intros Hm Hc Hw He Hi.
  destruct (reachable_tidy _ _ _ Hm Hc Hw) as [Hb|Ht].
  { destruct Hb as (n & Hn & Hr).
    destruct n as [|[|[|[|[|n]]]]]; [..|lia]; vm_compute in Hr;
      simplify_eq; by destruct i as [|[|i]]. }
  pose proof Ht as [Hcore _ (st & Hm1 & _) Hhan Hcrew Hown].
  assert (i ≠ 1%nat) as Hi1. { intros ->. by simplify_eq. }
  destruct (touches c i) eqn:Hto; [|left; by eapply untouched].
  pose proof (Hcrew _ _ Hi1 Hi) as Hmem. simpl in Hmem.
  destruct c as [j|j n|j n j' m]; simpl in Hto.
  - apply bool_decide_eq_true in Hto as <-.
    apply exec_inv in He as (g & h' & g' & new & Hi' & Htau & ->).
    rewrite Hi in Hi'. by simplify_eq.
  - apply bool_decide_eq_true in Hto as <-.
    apply exec_inv in He as (g & o & h' & g' & Hi' & Ho & Hal & ->).
    rewrite Hi in Hi'. simplify_eq. simpl in Ho.
    destruct n; [|done]. simpl in Ho. simplify_eq.
    apply alone_recv in Hal as (a & ch & v & -> & Hch & -> & Hbuf).
    assert (3 ≤ a)%nat as Ha.
    { inversion Hmem as [p Hu| | |]; subst.
      apply uses_inv in Hu as (Hh & _). by apply handle_core. }
    destruct Hbuf as [(b & Hb & _)|(_ & Hcl & -> & ->)].
    { by rewrite (Hhan _ _ Ha Hch) in Hb. }
    right. split_and!; [done..|]. exists a, ch.
    split_and!; [done..|]. simpl. apply list_lookup_insert_eq.
    by eapply lookup_lt_Some.
  - destruct (tidy_sync_inv _ _ _ _ _ _ _ Ht He)
      as (p & a & v & k0 & st' & kr & Hj1 & -> & Hj & Hp & Hoj & _).
    apply orb_true_iff in Hto as [Hto|Hto];
      apply bool_decide_eq_true in Hto; simplify_eq.
    by destruct n.
Qed.

Lemma wait_returns_when_closed_witness :
  let w := scenario 1 client_chan [Tau 0; Tau 0; Sync 2 0 1 0; Tau 2; Tau 0] in
  let w' := scenario 1 client_chan
              [Tau 0; Tau 0; Sync 2 0 1 0; Tau 2; Tau 0; Alone 3 0] in
  gs w' !! 3%nat = Some (GProg (Recv (Some 3%nat) (λ _, Down s0 Done)))
  ∨ (Alone 3 0 = Alone 3 0 ∧ heap w' = heap w ∧
     ∃ a ch, Some 3%nat = Some a ∧ (3 ≤ a)%nat ∧ heap w !! a = Some ch ∧
             closed ch = true ∧ gs w' !! 3%nat = Some (GProg (Down s0 Done))).
Proof.
  apply (wait_returns_when_closed 1 client_chan
           (scenario 1 client_chan [Tau 0; Tau 0; Sync 2 0 1 0; Tau 2; Tau 0])
           (Alone 3 0) _ 3%nat (Some 3%nat) (λ _, Down s0 Done)).
  - apply in_int_small. lia.
  - apply uses_client_chan.
  - apply (run_reachable _ (boot_sched
             ++ [Alone 1 0; Tau 0; Tau 0; Sync 2 0 1 0; Tau 2; Tau 0])).
    reflexivity.
  - reflexivity.
  - reflexivity.
Defined.

(** *** The locks out never exceed the largest maximum *)

Lemma bound_step max0 w c w' :
  tidy max0 w → exec w c = Some w' →
  locks_out w' ≤ locks_out w ∨ ∃ mx, max_now w = Some mx ∧ locks_out w' ≤ mx.
Proof.
  intros Ht He.
  pose proof Ht as [_ _ (st & Hm1 & Hst & _) _ _ _].
  pose proof (tidy_step _ _ _ _ Ht He) as [_ _ (st' & Hm1' & _) _ _ _].
  unfold locks_out, max_now. rewrite Hm1, Hm1'.
  destruct (fires_dec c 1) as [Hidle|[n0 Hf]].
  { rewrite (manager_idle _ _ _ _ _ _ He Hm1 Hidle) in Hm1'. simplify_eq.
    left. destruct st'; lia. }
  destruct (manager_fires _ _ _ _ _ _ _ He Hm1 Hf) as (sc & Hsc & Hout).
  destruct st as [|cur mx].
  - destruct n0; simplify_eq/=. destruct Hout as (_ & v & _ & Hm).
    rewrite Hm1' in Hm. simplify_eq. by left.
  - destruct Hst as [Hcur Hmx]. unfold in_int in Hmx. pose proof min_int_neg.
    destruct n0 as [|[|[|[|n0]]]]; simplify_eq/=.
    + destruct Hout as (Hl & v & _ & Hm). rewrite Hm1' in Hm. simplify_eq.
      case_bool_decide; [done|]. right. exists mx. split; [done|].
      rewrite wrap_id by (unfold in_int; lia). lia.
    + destruct Hout as (_ & v & _ & Hm). rewrite Hm1' in Hm. simplify_eq.
      left. case_bool_decide; [|lia].
      rewrite wrap_id by (unfold in_int; lia). lia.
    + destruct Hout as (_ & v & _ & Hm). rewrite Hm1' in Hm. simplify_eq.
      left. lia.
Qed.

Lemma bound_run max0 client cs : ∀ w w' cur mx,
  in_int max0 → (∀ s, uses s (client s)) →
  booting max0 client w ∨ tidy max0 w → run w cs = Some w' →
  gs w' !! 1%nat = Some (GManager s0 (MLoop cur mx)) →
  ∃ pk, peak w cs = Some pk ∧ mx ≤ pk ∧ cur ≤ Z.max (locks_out w) pk.
Proof.
  induction cs as [|c cs IH]; intros w w' cur mx Hm Hc Hw Hr H1; simpl in Hr.
  - simplify_eq. exists mx. unfold peak, max_now, locks_out. rewrite H1.
    split; [done|lia].
  - destruct (exec w c) as [w1|] eqn:He; [|done]. simpl in Hr.
    destruct (IH _ _ _ _ Hm Hc (world_step _ _ _ _ _ Hm Hc Hw He) Hr H1)
      as (pk & Hpk & Hmx & Hcur).
    simpl. rewrite He, Hpk.
    assert (locks_out w1 ≤ locks_out w
            ∨ ∃ m, max_now w = Some m ∧ locks_out w1 ≤ m) as Hstep.
    { destruct Hw as [Hb|Ht]; [|by eapply bound_step].
      left. destruct (booting_quiet _ _ _ c Hb) as (-> & _).
      destruct (booting_step _ _ _ _ _ Hb He) as [Hb'| ->]; [|done].
      by destruct (booting_quiet _ _ _ c Hb') as (-> & _). }
    destruct Hstep as [Hle|(m & Hmw & Hle)].
    + destruct (max_now w) as [m|]; simpl; eexists; (split; [done|lia]).
    + rewrite Hmw. simpl. eexists. split; [done|lia].
Qed.

(** X8. Once the manager runs its loop it has had a largest [max], which is
    at least its present [max], and its [current] is at most that largest
    [max], or 0 when that is negative: lowering the maximum with [SetMax()]
    can leave more locks out than the new maximum, but never more than were
    once allowed. *)
Theorem current_below_peak max0 client cs w cur mx :
  in_int max0 → (∀ s, uses s (client s)) →
  run (start max0 client) cs = Some w →
  gs w !! 1%nat = Some (GManager s0 (MLoop cur mx)) →
  ∃ pk, peak (start max0 client) cs = Some pk ∧ mx ≤ pk ∧ cur ≤ Z.max 0 pk.
Proof.
  intros Hm Hc Hr H1.
  assert (booting max0 client (start max0 client)
          ∨ tidy max0 (start max0 client)) as Hw0.
  { left. by exists 0%nat; split; [lia|]. }
  exact (bound_run _ _ _ _ _ _ _ Hm Hc Hw0 Hr H1).
Qed.

Lemma current_below_peak_witness :
  ∃ pk, peak (start 1 client_up_up) (boot_sched ++ [Alone 1 0; Sync 0 0 1 0])
        = Some pk ∧ 1 ≤ pk ∧ 1 ≤ Z.max 0 pk.
Proof.
  apply (current_below_peak 1 client_up_up
           (boot_sched ++ [Alone 1 0; Sync 0 0 1 0])
           (scenario 1 client_up_up [Sync 0 0 1 0]) 1 1).
  - apply in_int_small. lia.
  - intros s. apply uses_Up, uses_Up, uses_Done.
  - reflexivity.
  - reflexivity.
Defined.

End Dynaphore.
